(** * Telemetry line interpreter of the bike-safety dashboard

    A shallow embedding of the two variants of the line interpreter,
    [handleData] of [src/App.tsx] (strict wire format) and [processLine] of
    the second [App] component (fuzzy wire format), together with the part of
    the JavaScript runtime they rely on: strings of UTF-16 code units,
    IEEE 754 binary64 numbers, [parseInt], [parseFloat], [String.trim] and
    the backtracking regular-expression matcher behind [String.match]. *)

From Stdlib Require Import ZArith NArith List Ascii String Bool Lia.
From Stdlib Require Import Floats.SpecFloat.
From stdpp Require Import base decidable countable gmap list.

Local Open Scope Z_scope.

(** ** JavaScript runtime *)

Module JS.

(** *** Strings: sequences of UTF-16 code units *)

Abbreviation codeunit := N (only parsing).
Abbreviation jsstring := (list N) (only parsing).

Definition js (s : string) : jsstring :=
  map N_of_ascii (list_ascii_of_string s).

(** [WhiteSpace] and [LineTerminator] code units: what [\s] matches and what
    [trim], [parseInt] and [parseFloat] strip. *)
Definition isWhiteSpace (c : codeunit) : bool :=
  ((9 <=? c) && (c <=? 13) || (c =? 32) || (c =? 160) || (c =? 5760)
   || (8192 <=? c) && (c <=? 8202) || (c =? 8232) || (c =? 8233)
   || (c =? 8239) || (c =? 8287) || (c =? 12288) || (c =? 65279))%N.

Definition isDigit (c : codeunit) : bool := ((48 <=? c) && (c <=? 57))%N.

Fixpoint trimStart (s : jsstring) : jsstring :=
  match s with
  | c :: s' => if isWhiteSpace c then trimStart s' else s
  | [] => []
  end.

Definition trimEnd (s : jsstring) : jsstring := rev (trimStart (rev s)).

(** [String.prototype.trim]. *)
Definition trim (s : jsstring) : jsstring := trimEnd (trimStart s).

(** Longest prefix of characters satisfying [p], and the rest. *)
Fixpoint span (p : codeunit -> bool) (s : jsstring) : jsstring * jsstring :=
  match s with
  | c :: s' =>
      if p c then let '(a, b) := span p s' in (c :: a, b) else ([], s)
  | [] => ([], [])
  end.

Fixpoint isPrefix (p s : jsstring) : bool :=
  match p, s with
  | [], _ => true
  | a :: p', b :: s' => (a =? b)%N && isPrefix p' s'
  | _ :: _, [] => false
  end.

(** *** Numbers: IEEE 754 binary64 *)

Abbreviation number := spec_float (only parsing).

Definition prec : Z := 53.
Definition emax : Z := 1024.

Definition NaN : number := S754_nan.

(** The Number value of an integer: round to nearest, ties to even. *)
Definition ofZ (n : Z) : number := binary_normalize prec emax n 0 false.

(** The Number value of the quotient of two positive integers. *)
Definition ofQuot (neg : bool) (num den : positive) : number :=
  SFdiv prec emax (S754_finite neg num 0) (S754_finite false den 0).

(** Relational operators [<], [>], [<=], [>=] and strict equality [===] on
    Numbers; every comparison with NaN is false. *)
Definition lt (x y : number) : bool := SFltb x y.
Definition gt (x y : number) : bool := SFltb y x.
Definition le (x y : number) : bool := SFleb x y.
Definition ge (x y : number) : bool := SFleb y x.
Definition seq (x y : number) : bool := SFeqb x y.

(** [Math.abs]. *)
Definition abs (x : number) : number := SFabs x.

(** Value of a string of digits in base [radix]. *)
Definition digitVal (c : codeunit) : N :=
  (if isDigit c then c - 48
   else if (97 <=? c) && (c <=? 122) then c - 87
   else c - 55)%N.

Definition digitsVal (radix : N) (ds : jsstring) : N :=
  fold_left (fun acc c => acc * radix + digitVal c)%N ds 0%N.

Definition signOf (s : jsstring) : bool * jsstring :=
  match s with
  | 45%N :: s' => (true, s')
  | 43%N :: s' => (false, s')
  | _ => (false, s)
  end.

(** Exponent part of a [StrDecimalLiteral]: [e] or [E], an optional sign and
    at least one digit; absent or incomplete, it contributes nothing. *)
Definition exponentPart (s : jsstring) : Z :=
  match s with
  | c :: s' =>
      if ((c =? 101) || (c =? 69))%N then
        let '(neg, s'') := signOf s' in
        let '(ds, _) := span isDigit s'' in
        match ds with
        | [] => 0
        | _ => if neg then - Z.of_N (digitsVal 10 ds) else Z.of_N (digitsVal 10 ds)
        end
      else 0
  | [] => 0
  end.

(** [parseFloat]: leading white space is skipped, then the longest prefix
    that is a [StrDecimalLiteral] is converted to the nearest Number; NaN
    when there is none. *)
Definition parseFloat (input : jsstring) : number :=
  let '(neg, s) := signOf (trimStart input) in
  if isPrefix (js "Infinity") s then S754_infinity neg
  else
    let '(ip, s1) := span isDigit s in
    let '(fp, s2) :=
      match s1 with
      | 46%N :: s1' => span isDigit s1'
      | _ => ([], s1)
      end in
    match ip, fp with
    | [], [] => NaN
    | _, _ =>
        let e := exponentPart s2 - Z.of_nat (length fp) in
        match digitsVal 10 (ip ++ fp) with
        | Npos m =>
            match e with
            | Zneg k => ofQuot neg m (10 ^ k)
            | _ => ofQuot neg (m * Z.to_pos (10 ^ e)) 1
            end
        | N0 => S754_zero neg
        end
    end.

Definition isRadixDigit (radix : N) (c : codeunit) : bool :=
  if (radix =? 16)%N then
    isDigit c || ((97 <=? c) && (c <=? 102))%N || ((65 <=? c) && (c <=? 70))%N
  else isDigit c.

(** [parseInt] with no radix argument: leading white space and a sign are
    skipped, a [0x] prefix selects base 16, and the longest prefix of digits
    is converted to the nearest Number; NaN when there is none. *)
Definition parseInt (input : jsstring) : number :=
  let '(neg, s) := signOf (trimStart input) in
  let '(radix, s1) :=
    match s with
    | 48%N :: x :: s' =>
        if ((x =? 120) || (x =? 88))%N then (16%N, s') else (10%N, s)
    | _ => (10%N, s)
    end in
  let '(ds, _) := span (isRadixDigit radix) s1 in
  match ds with
  | [] => NaN
  | _ =>
      match digitsVal radix ds with
      | N0 => S754_zero neg
      | Npos n => if neg then SFopp (ofZ (Zpos n)) else ofZ (Zpos n)
      end
  end.

(** A numeric literal of the source text. *)
Definition lit (s : string) : number := parseFloat (js s).

(** *** Regular expressions

    The matcher follows the continuation-passing semantics of the language
    standard: a matcher takes the rest of the input, the captures so far and
    a continuation that decides whether the rest of the pattern matches;
    alternatives and greedy quantifiers backtrack through the continuation. *)

Inductive atom :=
  | AChar (c : codeunit)       (* a single character *)
  | ADigit                     (* \d *)
  | ASpace.                    (* \s *)

Inductive regex :=
  | Empty
  | Chr (c : codeunit)
  | Class (cs : list atom)                       (* [...] and escapes *)
  | Seq (r1 r2 : regex)
  | Alt (r1 r2 : regex)                          (* r1|r2 *)
  | Quant (min : nat) (max : option nat) (r : regex)   (* greedy *)
  | Group (n : nat) (r : regex).                 (* n-th capturing group *)

Definition Star := Quant 0 None.
Definition Plus := Quant 1 None.
Definition Opt := Quant 0 (Some 1%nat).

Fixpoint chars (s : jsstring) : regex :=
  match s with
  | [] => Empty
  | c :: s' => Seq (Chr c) (chars s')
  end.

(** A literal piece of pattern text. *)
Definition Str (s : string) : regex := chars (js s).

Definition Cat (rs : list regex) : regex := foldr Seq Empty rs.

Record RegExp := { pattern : regex; ignoreCase : bool }.

(** [Canonicalize]: with the [i] flag characters are compared by their upper
    case. The patterns of this program are ASCII; a code unit above 127 never
    canonicalizes to an ASCII one, and no character has a white-space
    character as its upper case, so folding the ASCII letters is all that can
    make two characters agree. *)
Definition canonicalize (ic : bool) (c : codeunit) : codeunit :=
  if (ic && (97 <=? c) && (c <=? 122))%N then (c - 32)%N else c.

Definition atomMatches (ic : bool) (a : atom) (c : codeunit) : bool :=
  let cc := canonicalize ic c in
  match a with
  | AChar x => (canonicalize ic x =? cc)%N
  | ADigit => isDigit cc
  | ASpace => isWhiteSpace cc
  end.

Definition captures := list (option (list N)).
Definition cont := list N -> captures -> option captures.

Fixpoint groupsOf (r : regex) : list nat :=
  match r with
  | Empty | Chr _ | Class _ => []
  | Seq r1 r2 | Alt r1 r2 => groupsOf r1 ++ groupsOf r2
  | Quant _ _ r1 => groupsOf r1
  | Group n r1 => n :: groupsOf r1
  end.

Definition clearCaptures (gs : list nat) (caps : captures) : captures :=
  foldr (fun n c => <[n := None]> c) caps gs.

(** [RepeatMatcher] for a greedy quantifier over the matcher [m]. An
    iteration that consumes nothing once the minimum is reached fails (the
    empty check), so [min] plus the length of the input decreases at every
    iteration and [fuel], started above that sum, never runs out. *)
Fixpoint repeatMatcher (m : list N -> captures -> cont -> option captures)
    (gs : list nat) (fuel min : nat) (max : option nat)
    (s : jsstring) (caps : captures) (k : cont) {struct fuel} : option captures :=
  match fuel with
  | O => None
  | S fuel' =>
      match max with
      | Some O => k s caps
      | _ =>
          let d : cont := fun s' caps' =>
            if ((min =? 0) && (length s' =? length s))%nat then None
            else repeatMatcher m gs fuel' (Nat.pred min) (Nat.pred <$> max) s' caps' k in
          let xr := clearCaptures gs caps in
          match min with
          | O => match m s xr d with
                 | Some z => Some z
                 | None => k s caps
                 end
          | S _ => m s xr d
          end
      end
  end.

Fixpoint matcher (ic : bool) (r : regex) (s : jsstring) (caps : captures)
    (k : cont) {struct r} : option captures :=
  match r with
  | Empty => k s caps
  | Chr c =>
      match s with
      | x :: s' =>
          if (canonicalize ic x =? canonicalize ic c)%N then k s' caps else None
      | [] => None
      end
  | Class cs =>
      match s with
      | x :: s' =>
          if existsb (fun a => atomMatches ic a x) cs then k s' caps else None
      | [] => None
      end
  | Seq r1 r2 =>
      matcher ic r1 s caps (fun s' caps' => matcher ic r2 s' caps' k)
  | Alt r1 r2 =>
      match matcher ic r1 s caps k with
      | Some z => Some z
      | None => matcher ic r2 s caps k
      end
  | Quant min max r1 =>
      repeatMatcher (matcher ic r1) (groupsOf r1)
        (S (min + length s)) min max s caps k
  | Group n r1 =>
      matcher ic r1 s caps (fun s' caps' =>
        k s' (<[n := Some (take (length s - length s') s)]> caps'))
  end.

Definition nCaptures (r : regex) : nat := foldr Nat.max 0%nat (groupsOf r).

(** One attempt of the pattern at the start of [s]: the result array holds
    the matched text at index 0 and the captures after it. *)
Definition matchAt (re : RegExp) (s : jsstring) : option captures :=
  matcher (ignoreCase re) (pattern re) s
    (replicate (S (nCaptures (pattern re))) None)
    (fun s' caps => Some (<[0%nat := Some (take (length s - length s') s)]> caps)).

(** [RegExp.prototype.exec] without the [g] and [y] flags: the first start
    position, from the left, at which the pattern matches. *)
Fixpoint exec (re : RegExp) (s : jsstring) : option captures :=
  match matchAt re s with
  | Some z => Some z
  | None =>
      match s with
      | [] => None
      | _ :: s' => exec re s'
      end
  end.

(** [String.prototype.match] with a regular expression without the [g] flag;
    [None] is [null]. *)
Definition strMatch (s : jsstring) (re : RegExp) : option captures := exec re s.

(** [m[i]] used as a string: an absent entry is [undefined], whose string
    conversion is the text "undefined". *)
Definition item (m : captures) (i : nat) : jsstring :=
  match m !! i with
  | Some (Some x) => x
  | _ => js "undefined"
  end.

End JS.

Import JS.

(** ** Data model ([types.ts]) *)

Global Instance spec_float_eq_dec : EqDecision spec_float.
Proof. solve_decision. Defined.

Global Instance spec_float_countable : Countable spec_float.
Proof.
  refine (inj_countable'
    (fun x => match x with
              | S754_zero s => inl (inl s)
              | S754_infinity s => inl (inr s)
              | S754_nan => inr (inl tt)
              | S754_finite s m e => inr (inr (s, m, e))
              end)
    (fun y => match y with
              | inl (inl s) => S754_zero s
              | inl (inr s) => S754_infinity s
              | inr (inl _) => S754_nan
              | inr (inr (s, m, e)) => S754_finite s m e
              end) _).
  by intros [].
Defined.

Module SensorData.
Record t := mk {
  id : number;          (* 1=Left, 2=Right, 3=Back *)
  distance : number;
  lastUpdate : number }.
End SensorData.

Module GpsData.
Record t := mk {
  lat : number;
  lng : number;
  valid : bool;
  lastUpdate : number }.
End GpsData.

(** The name of the property that a Number indexes: its string conversion,
    which tells all Numbers apart except the two zeros. *)
Definition propertyKey (x : number) : number :=
  match x with
  | S754_zero _ => S754_zero false
  | _ => x
  end.

Record BikeState := {
  leftDanger : bool;
  rightDanger : bool;
  backDanger : bool;
  sensors : gmap spec_float SensorData.t;      (* Record<number, SensorData> *)
  gps : GpsData.t;
  isConnected : bool }.

(** [sensors[i]]. *)
Definition sensor (st : BikeState) (i : number) : option SensorData.t :=
  sensors st !! propertyKey i.

Definition initialState : BikeState :=
  {| leftDanger := false;
     rightDanger := false;
     backDanger := false;
     sensors :=
       <[propertyKey (lit "3") := SensorData.mk (lit "3") (lit "999") (lit "0")]>
      (<[propertyKey (lit "2") := SensorData.mk (lit "2") (lit "999") (lit "0")]>
      (<[propertyKey (lit "1") := SensorData.mk (lit "1") (lit "999") (lit "0")]> ∅));
     gps := GpsData.mk (lit "0") (lit "0") false (lit "0");
     isConnected := false |}.

(** The two state updaters handed to [setBikeState]; their text is the same
    in both variants. [now] is the reading of [Date.now()]. *)
Definition sensorUpdater (id distance : number) (isDanger : bool)
    (now : number) (prev : BikeState) : BikeState :=
  let updatedSensors :=
    <[propertyKey id := SensorData.mk id distance now]> (sensors prev) in
  {| leftDanger := if seq id (lit "1") then isDanger else leftDanger prev;
     rightDanger := if seq id (lit "2") then isDanger else rightDanger prev;
     backDanger := if seq id (lit "3") then isDanger else backDanger prev;
     sensors := updatedSensors;
     gps := gps prev;
     isConnected := isConnected prev |}.

Definition gpsUpdater (lat lng : number) (valid : bool) (now : number)
    (prev : BikeState) : BikeState :=
  {| leftDanger := leftDanger prev;
     rightDanger := rightDanger prev;
     backDanger := backDanger prev;
     sensors := sensors prev;
     gps := GpsData.mk lat lng valid now;
     isConnected := isConnected prev |}.

Definition ch (a : ascii) : codeunit := N_of_ascii a.

(** [const isDanger = distance < threshold && distance > 0], with
    [threshold = 150.0] in both variants. *)
Definition threshold : number := lit "150.0".

Definition isDanger (distance : number) : bool :=
  lt distance threshold && gt distance (lit "0").

(** ** Strict variant: [handleData] of [src/App.tsx] *)

Module Strict.

Record AppState := { bikeState : BikeState; logs : list (list N) }.

Definition addLog (msg : jsstring) (prev : list (list N)) : list (list N) :=
  take 10 (msg :: prev).

(** [/ID (\d+): Distance = ([\d.]+) cm/] *)
Definition sensorRe : RegExp :=
  {| pattern :=
       Cat [Str "ID "; Group 1 (Plus (Class [ADigit])); Str ": Distance = ";
            Group 2 (Plus (Class [ADigit; AChar (ch ".")])); Str " cm"];
     ignoreCase := false |}.

(** [/Lat: ([\d.-]+)\s+Lng: ([\d.-]+)/] *)
Definition gpsRe : RegExp :=
  {| pattern :=
       Cat [Str "Lat: ";
            Group 1 (Plus (Class [ADigit; AChar (ch "."); AChar (ch "-")]));
            Plus (Class [ASpace]); Str "Lng: ";
            Group 2 (Plus (Class [ADigit; AChar (ch "."); AChar (ch "-")]))];
     ignoreCase := false |}.

(** The parsing part of [handleData], on the trimmed non-empty line. *)
Definition parseLine (line : jsstring) (now : number) (prev : BikeState)
    : BikeState :=
  let st :=
    match strMatch line sensorRe with
    | Some sensorMatch =>
        let id := parseInt (item sensorMatch 1) in
        let distance := parseFloat (item sensorMatch 2) in
        sensorUpdater id distance (isDanger distance) now prev
    | None => prev
    end in
  match strMatch line gpsRe with
  | Some gpsMatch =>
      gpsUpdater (parseFloat (item gpsMatch 1)) (parseFloat (item gpsMatch 2))
        true now st
  | None => st
  end.

(** [handleData]: [value] is the decoded text of the characteristic value,
    [None] when the characteristic has no value. *)
Definition handleData (value : option (list N)) (now : number) (app : AppState)
    : AppState :=
  match value with
  | None => app
  | Some text =>
      let line := trim text in
      match line with
      | [] => app
      | _ =>
          {| bikeState := parseLine line now (bikeState app);
             logs := addLog line (logs app) |}
      end
  end.

End Strict.

(** ** Fuzzy variant: [processLine] of the second [App] component *)

Module Fuzzy.

Record AppState := { bikeState : BikeState; logs : list (list N) }.

Definition addLog (msg : jsstring) (prev : list (list N)) : list (list N) :=
  take 50 (msg :: prev).

(** [/(?:ID|Sensor|S)\s*(\d+)[:\s=]+([\d.]+)/i] *)
Definition sensorRe : RegExp :=
  {| pattern :=
       Cat [Alt (Str "ID") (Alt (Str "Sensor") (Str "S"));
            Star (Class [ASpace]);
            Group 1 (Plus (Class [ADigit]));
            Plus (Class [AChar (ch ":"); ASpace; AChar (ch "=")]);
            Group 2 (Plus (Class [ADigit; AChar (ch ".")]))];
     ignoreCase := true |}.

(** [/(?:Lat|Latitude|GPS)[:\s=]+([\d.-]+)/i] *)
Definition latRe : RegExp :=
  {| pattern :=
       Cat [Alt (Str "Lat") (Alt (Str "Latitude") (Str "GPS"));
            Plus (Class [AChar (ch ":"); ASpace; AChar (ch "=")]);
            Group 1 (Plus (Class [ADigit; AChar (ch "."); AChar (ch "-")]))];
     ignoreCase := true |}.

(** [/(?:Lng|Longitude|Lon)[:\s=]+([\d.-]+)/i] *)
Definition lngRe : RegExp :=
  {| pattern :=
       Cat [Alt (Str "Lng") (Alt (Str "Longitude") (Str "Lon"));
            Plus (Class [AChar (ch ":"); ASpace; AChar (ch "=")]);
            Group 1 (Plus (Class [ADigit; AChar (ch "."); AChar (ch "-")]))];
     ignoreCase := true |}.

(** [/(-?\d+\.\d+),\s*(-?\d+\.\d+)/] *)
Definition commaGpsRe : RegExp :=
  {| pattern :=
       Cat [Group 1 (Cat [Opt (Chr (ch "-")); Plus (Class [ADigit]);
                          Chr (ch "."); Plus (Class [ADigit])]);
            Chr (ch ",");
            Star (Class [ASpace]);
            Group 2 (Cat [Opt (Chr (ch "-")); Plus (Class [ADigit]);
                          Chr (ch "."); Plus (Class [ADigit])])];
     ignoreCase := false |}.

(** Fuzzy sensor parsing: the update is queued only for ids 1 to 3. *)
Definition sensorStep (cleanLine : jsstring) (now : number) (prev : BikeState)
    : BikeState :=
  match strMatch cleanLine sensorRe with
  | Some sensorMatch =>
      let id := parseInt (item sensorMatch 1) in
      let distance := parseFloat (item sensorMatch 2) in
      if ge id (lit "1") && le id (lit "3")
      then sensorUpdater id distance (isDanger distance) now prev
      else prev
  | None => prev
  end.

(** Fuzzy GPS parsing: the values of [lat], [lng] and [found] after the
    labelled form and the comma-separated fallback have been tried. *)
Definition gpsFields (cleanLine : jsstring) : number * number * bool :=
  let latMatch := strMatch cleanLine latRe in
  let lngMatch := strMatch cleanLine lngRe in
  let commaGpsMatch := strMatch cleanLine commaGpsRe in
  match latMatch, lngMatch with
  | Some latMatch, Some lngMatch =>
      (parseFloat (item latMatch 1), parseFloat (item lngMatch 1), true)
  | _, _ =>
      match commaGpsMatch with
      | Some commaGpsMatch =>
          (parseFloat (item commaGpsMatch 1),
           parseFloat (item commaGpsMatch 2), true)
      | None => (lit "0", lit "0", false)
      end
  end.

Definition gpsStep (cleanLine : jsstring) (now : number) (prev : BikeState)
    : BikeState :=
  let '(lat, lng, found) := gpsFields cleanLine in
  if found then
    let hasFix := gt (abs lat) (lit "0.0001") || gt (abs lng) (lit "0.0001") in
    gpsUpdater lat lng hasFix now prev
  else prev.

Definition processLine (line : jsstring) (now : number) (prev : BikeState)
    : BikeState :=
  let cleanLine := trim line in
  match cleanLine with
  | [] => prev
  | _ => gpsStep cleanLine now (sensorStep cleanLine now prev)
  end.

(** The body of the serial reader for one line of the buffer. *)
Definition serialLine (line : jsstring) (now : number) (app : AppState)
    : AppState :=
  match trim line with
  | [] => app
  | _ =>
      {| bikeState := processLine (trim line) now (bikeState app);
         logs := addLog (js ">> " ++ trim line) (logs app) |}
  end.

(** The BLE notification listener; [text] is the decoded value. *)
Definition bleNotify (text : jsstring) (now : number) (app : AppState)
    : AppState :=
  let line := trim text in
  {| bikeState := processLine line now (bikeState app);
     logs := addLog (js "BLE >> " ++ line) (logs app) |}.

End Fuzzy.

(** ** Sample inputs *)

Definition sampleTime : number := ofZ 1700000000000.

Definition sampleApp : Strict.AppState :=
  {| Strict.bikeState := initialState; Strict.logs := [] |}.

(** The result of appending the messages [msgs], oldest first, to a log. *)
Definition appendAll (addLog : list N -> list (list N) -> list (list N))
    (msgs : list (list N)) (log : list (list N)) : list (list N) :=
  fold_left (fun l msg => addLog msg l) msgs log.

(** The danger flag [flag] of the state [st'] classifies the distance [d]:
    it is set exactly when [0 < d < 150.0], and never when [d <= 0]. *)
Definition classifies (flag : BikeState -> bool) (d : number) (st' : BikeState)
    : Prop :=
  (flag st' = true <-> gt d (lit "0") = true /\ lt d (lit "150.0") = true)
  /\ (le d (lit "0") = true -> flag st' = false).

(** The flag that belongs to the sensor [id] classifies [d]. *)
Definition flagOfSensor (id d : number) (st' : BikeState) : Prop :=
  (seq id (lit "1") = true -> classifies leftDanger d st')
  /\ (seq id (lit "2") = true -> classifies rightDanger d st')
  /\ (seq id (lit "3") = true -> classifies backDanger d st').

(** ** Auxiliary notions used in the statements *)

(** A string that does not start with white space. *)
Definition startsClean (s : list N) : Prop :=
  match s with
  | [] => True
  | c :: _ => isWhiteSpace c = false
  end.

(** The characters of a coordinate capture, [[\d.-]]. *)
Definition numChar (c : N) : bool := isDigit c || (c =? 46)%N || (c =? 45)%N.

Definition inClass (ic : bool) (cs : list atom) (c : N) : bool :=
  existsb (fun a => atomMatches ic a c) cs.

(** The string does not go on with a character of the class. *)
Definition stopsAt (ic : bool) (cs : list atom) (s : list N) : Prop :=
  match s with
  | [] => True
  | c :: _ => inClass ic cs c = false
  end.

(** The matcher of [r] can consume [p] and hand over to its continuation. *)
Definition consumes (ic : bool) (r : regex) (p : list N) : Prop :=
  forall s caps k z, k s caps = Some z -> matcher ic r (p ++ s) caps k = Some z.

(** The classes [[:\s=]] and [[\d.-]] of the fuzzy patterns. *)
Definition sepClass : list atom := [AChar (ch ":"); ASpace; AChar (ch "=")].

Definition numClass : list atom := [ADigit; AChar (ch "."); AChar (ch "-")].

(** A matcher calls its continuation only on what is left of its input, so
    two continuations that agree there give the same result. *)
Definition suffixLocal (m : list N -> captures -> cont -> option captures) : Prop :=
  forall s caps (k1 k2 : cont),
    (forall s' caps', (length s' <= length s)%nat -> k1 s' caps' = k2 s' caps') ->
    m s caps k1 = m s caps k2.

(** ** Sessions: every state update the two components make *)

(** [prev => ({ ...prev, isConnected: b })], the updater of the connection,
    disconnection, error and simulator handlers. *)
Definition setConnected (b : bool) (prev : BikeState) : BikeState :=
  {| leftDanger := leftDanger prev;
     rightDanger := rightDanger prev;
     backDanger := backDanger prev;
     sensors := sensors prev;
     gps := gps prev;
     isConnected := b |}.

(** The fuzzy component calls [setBikeState] from [processLine] (reached from
    the serial reader, the BLE listener and the simulator) and from the
    handlers that set [isConnected]; its state starts as [initialState]. *)
Module FuzzySession.

Inductive event :=
  | Line (line : list N) (now : spec_float)
  | Connection (b : bool).

Definition step (st : BikeState) (ev : event) : BikeState :=
  match ev with
  | Line line now => Fuzzy.processLine line now st
  | Connection b => setConnected b st
  end.

Definition run (evs : list event) : BikeState := fold_left step evs initialState.

End FuzzySession.

(** The strict component changes its state in [handleData], in the handlers
    that set [isConnected], and in [addLog] for the messages of the
    connection procedure. *)
Module StrictSession.

Inductive event :=
  | Data (value : option (list N)) (now : spec_float)
  | Connection (b : bool)
  | Log (msg : list N).

Definition step (app : Strict.AppState) (ev : event) : Strict.AppState :=
  match ev with
  | Data value now => Strict.handleData value now app
  | Connection b =>
      {| Strict.bikeState := setConnected b (Strict.bikeState app);
         Strict.logs := Strict.logs app |}
  | Log msg =>
      {| Strict.bikeState := Strict.bikeState app;
         Strict.logs := Strict.addLog msg (Strict.logs app) |}
  end.

Definition run (evs : list event) : Strict.AppState :=
  fold_left step evs {| Strict.bikeState := initialState; Strict.logs := [] |}.

End StrictSession.

(** The sensor [i] has a reading that carries its own id, and its danger
    flag is the classification of the retained distance. *)
Definition sensorOk (i : spec_float) (flag : BikeState -> bool) (st : BikeState)
    : Prop :=
  exists r, sensor st i = Some r /\ SensorData.id r = i
            /\ flag st = isDanger (SensorData.distance r).

Definition consistent (st : BikeState) : Prop :=
  sensorOk (lit "1") leftDanger st /\ sensorOk (lit "2") rightDanger st
  /\ sensorOk (lit "3") backDanger st.

(** [Math.abs(lat) > 0.0001 || Math.abs(lng) > 0.0001] for a stored fix. *)
Definition hasFix (g : GpsData.t) : bool :=
  gt (abs (GpsData.lat g)) (lit "0.0001")
  || gt (abs (GpsData.lng g)) (lit "0.0001").

Definition blank (s : list N) : Prop := Forall (fun c => isWhiteSpace c = true) s.

(** ** The serial reader: framing of the chunks into lines *)

Module SerialReader.

(** [String.prototype.split] with a separator of one character: the pieces
    between the separators, always at least one. *)
Fixpoint split (sep : N) (s : list N) : list (list N) :=
  match s with
  | [] => [[]]
  | c :: s' =>
      if (c =? sep)%N then [] :: split sep s'
      else
        match split sep s' with
        | p :: ps => (c :: p) :: ps
        | [] => [[c]]
        end
  end.

(** What the loop of [connectSerial] keeps between two reads: the text after
    the last line feed, and the state of the component. *)
Record Reader := { buffer : list N; app : Fuzzy.AppState }.

(** [lines.forEach(line => ...)]: the line handler on every complete line,
    in order. The updates of a line read the clock ([Date.now()]) when they
    are made; [clock i] is the reading for the line at position [i]. *)
Fixpoint forEach (lines : list (list N)) (clock : nat -> spec_float)
    (a : Fuzzy.AppState) : Fuzzy.AppState :=
  match lines with
  | [] => a
  | line :: lines' =>
      forEach lines' (fun i => clock (S i)) (Fuzzy.serialLine line (clock O) a)
  end.

(** One turn of the loop, for the chunk [value]:
    the chunk is added to the buffer, the buffer is split at the line
    feeds, the last piece (the empty text when nothing follows the last line
    feed) becomes the new buffer, and every complete line goes through the
    line handler. *)
Definition readChunk (value : list N) (clock : nat -> spec_float) (r : Reader)
    : Reader :=
  let buffer := buffer r ++ value in
  let lines := split 10 buffer in
  {| buffer := default [] (last lines);
     app := forEach (removelast lines) clock (app r) |}.

End SerialReader.

(** The complete lines of a text and what follows its last line feed. *)
Fixpoint frame (s : list N) : list (list N) * list N :=
  match s with
  | [] => ([], [])
  | c :: s' =>
      let '(ls, r) := frame s' in
      if (c =? 10)%N then ([] :: ls, r)
      else
        match ls with
        | [] => ([], c :: r)
        | p :: ps => ((c :: p) :: ps, r)
        end
  end.

(** ** What a pattern can consume

    [consumed ic r s caps s' caps'] says that the pattern [r] can match the
    part of [s] that precedes its suffix [s'], turning the captures [caps]
    into [caps']. Every successful run of the matcher is of this kind (see
    [matcher_consumed]). *)
Inductive consumed (ic : bool) :
    regex -> list N -> captures -> list N -> captures -> Prop :=
  | consumed_Empty s caps : consumed ic Empty s caps s caps
  | consumed_Chr c x s caps :
      canonicalize ic x = canonicalize ic c ->
      consumed ic (Chr c) (x :: s) caps s caps
  | consumed_Class cs x s caps :
      inClass ic cs x = true -> consumed ic (Class cs) (x :: s) caps s caps
  | consumed_Seq r1 r2 s caps s1 caps1 s2 caps2 :
      consumed ic r1 s caps s1 caps1 -> consumed ic r2 s1 caps1 s2 caps2 ->
      consumed ic (Seq r1 r2) s caps s2 caps2
  | consumed_Alt_l r1 r2 s caps s' caps' :
      consumed ic r1 s caps s' caps' -> consumed ic (Alt r1 r2) s caps s' caps'
  | consumed_Alt_r r1 r2 s caps s' caps' :
      consumed ic r2 s caps s' caps' -> consumed ic (Alt r1 r2) s caps s' caps'
  | consumed_Quant_stop max r s caps : consumed ic (Quant 0 max r) s caps s caps
  | consumed_Quant_full min r s caps :
      consumed ic (Quant min (Some 0%nat) r) s caps s caps
  | consumed_Quant_step min max r s caps s1 caps1 s2 caps2 :
      consumed ic r s (clearCaptures (groupsOf r) caps) s1 caps1 ->
      consumed ic (Quant (Nat.pred min) (Nat.pred <$> max) r) s1 caps1 s2 caps2 ->
      consumed ic (Quant min max r) s caps s2 caps2
  | consumed_Group n r s caps s' caps' :
      consumed ic r s caps s' caps' ->
      consumed ic (Group n r) s caps s'
        (<[n := Some (take (length s - length s') s)]> caps').

(** The characters of a distance capture, [[\d.]]. *)
Definition distChar (c : N) : bool := isDigit c || (c =? 46)%N.

(** A Number that is NaN or has the sign [neg]. *)
Definition signIs (neg : bool) (x : spec_float) : Prop :=
  match x with
  | S754_nan => True
  | S754_zero s | S754_infinity s | S754_finite s _ _ => s = neg
  end.

(** A retained reading is stored under the key of its own id, its id is a
    Number that is at least 0 and its distance is not below 0. *)
Definition readingOk (k : spec_float) (r : SensorData.t) : Prop :=
  k = propertyKey (SensorData.id r)
  /\ ge (SensorData.id r) (lit "0") = true
  /\ lt (SensorData.distance r) (lit "0") = false.

Definition readingsOk (st : BikeState) : Prop :=
  forall k r, sensors st !! k = Some r -> readingOk k r.

(** A decimal as the fallback pattern wants it, [-?\d+\.\d+]: an optional
    minus sign, digits, a dot, digits. *)
Definition decimal (a : list N) : Prop :=
  exists sg i fr,
    a = sg ++ i ++ [ch "."] ++ fr
    /\ (sg = [] \/ sg = [ch "-"])
    /\ i <> [] /\ Forall (fun c => isDigit c = true) i
    /\ fr <> [] /\ Forall (fun c => isDigit c = true) fr.

(** The matcher of [r] can consume [p] when [rest] follows, and hand over
    to its continuation with the captures it was given. *)
Definition consumesBefore (ic : bool) (r : regex) (p rest : list N) : Prop :=
  forall caps k z, k rest caps = Some z -> matcher ic r (p ++ rest) caps k = Some z.

(** * Properties *)

(** ** Numbers *)

Lemma lit_0 : lit "0" = S754_zero false.
Proof. reflexivity. Qed.

Lemma lit_1 : lit "1" = S754_finite false 4503599627370496 (-52).
Proof. vm_compute. reflexivity. Qed.

Lemma lit_2 : lit "2" = S754_finite false 4503599627370496 (-51).
Proof. vm_compute. reflexivity. Qed.

Lemma lit_3 : lit "3" = S754_finite false 6755399441055744 (-51).
Proof. vm_compute. reflexivity. Qed.

Lemma threshold_val : threshold = S754_finite false 5277655813324800 (-45).
Proof. vm_compute. reflexivity. Qed.

(** Strict equality with a positive finite Number is equality of the
    representations. *)
Lemma seq_finite_eq x m e :
  seq x (S754_finite false m e) = true -> x = S754_finite false m e.
Proof.
  unfold seq, SFeqb, SFcompare.
  destruct x as [s|s| |s m' e']; try discriminate;
    try (destruct s; discriminate).
  destruct s; [discriminate|].
  destruct (Z.compare_spec e' e) as [->| |]; try discriminate.
  change (Pos.compare_cont Eq m' m) with (Pos.compare m' m).
  destruct (Pos.compare_spec m' m) as [->| |]; try discriminate.
  reflexivity.
Qed.

Lemma le_zero_not_gt d : le d (lit "0") = true -> gt d (lit "0") = false.
Proof.
  rewrite lit_0. unfold le, gt, SFleb, SFltb.
  destruct d as [s|s| |s m e]; simpl; try destruct s; simpl; congruence.
Qed.

Lemma isDanger_classifies (flag : BikeState -> bool) d st' :
  flag st' = isDanger d -> classifies flag d st'.
Proof.
  intros Hf. unfold classifies. rewrite Hf. unfold isDanger, threshold. split.
  - rewrite andb_true_iff. tauto.
  - intros H. rewrite (le_zero_not_gt _ H). apply andb_false_r.
Qed.

(** *** Integers as Numbers *)

Lemma digits2_pos_lower p : 2 ^ (Zpos (digits2_pos p) - 1) <= Zpos p.
Proof.
  induction p as [p IH|p IH|]; simpl digits2_pos; [| |simpl; lia];
    rewrite Pos2Z.inj_succ;
    replace (Z.succ (Zpos (digits2_pos p)) - 1)
      with (Z.succ (Zpos (digits2_pos p) - 1)) by lia;
    rewrite Z.pow_succ_r by lia; lia.
Qed.

Lemma shr_1_lower a mrs :
  0 <= a -> 2 ^ (a + 1) <= shr_m mrs -> 2 ^ a <= shr_m (shr_1 mrs).
Proof.
  intros Ha. rewrite Z.pow_add_r by lia. change (2 ^ 1) with 2.
  assert (0 < 2 ^ a) by (apply Z.pow_pos_nonneg; lia).
  destruct mrs as [m r s]. destruct m as [|[p|p|]|p]; simpl; lia.
Qed.

Lemma iter_shr_1_lower n : forall a mrs,
  0 <= a -> 2 ^ (a + Zpos n) <= shr_m mrs ->
  2 ^ a <= shr_m (SpecFloat.iter_pos shr_1 n mrs).
Proof.
  induction n as [n IH|n IH|]; intros a mrs Ha H; simpl.
  - apply IH; [lia|]. apply IH; [lia|]. apply shr_1_lower; [lia|].
    replace (a + Zpos n + Zpos n + 1) with (a + Zpos n~1) by lia. exact H.
  - apply IH; [lia|]. apply IH; [lia|].
    replace (a + Zpos n + Zpos n) with (a + Zpos n~0) by lia. exact H.
  - apply shr_1_lower; [lia|exact H].
Qed.

Lemma shr_m_of_loc m l : shr_m (shr_record_of_loc m l) = m.
Proof. destruct l as [|[]]; reflexivity. Qed.

Lemma shr_fexp_shape p e l :
  emin prec emax <= e ->
  1 <= shr_m (fst (shr_fexp prec emax (Zpos p) e l))
  /\ e <= snd (shr_fexp prec emax (Zpos p) e l).
Proof.
  intros He. unfold shr_fexp, shr.
  destruct (fexp prec emax (Zdigits2 (Zpos p) + e) - e) as [|n|n] eqn:En;
    simpl fst; simpl snd; rewrite ?shr_m_of_loc; try lia.
  split; [|lia].
  change 1 with (2 ^ 0). apply iter_shr_1_lower; [lia|].
  rewrite shr_m_of_loc. simpl Zdigits2 in En.
  etransitivity; [|apply digits2_pos_lower].
  apply Z.pow_le_mono_r; [lia|].
  unfold fexp, emin, prec, emax in *. lia.
Qed.

Lemma round_nearest_even_lower m l : m <= round_nearest_even m l.
Proof.
  unfold round_nearest_even. destruct l as [|[]]; try lia.
  destruct (Z.even m); lia.
Qed.

Lemma binary_round_aux_shape s p e l :
  emin prec emax <= e ->
  binary_round_aux prec emax s (Zpos p) e l = S754_infinity s
  \/ exists m' e', binary_round_aux prec emax s (Zpos p) e l = S754_finite s m' e'
                   /\ e <= e'.
Proof.
  intros He. unfold binary_round_aux.
  destruct (shr_fexp_shape p e l He) as [Hm1 He1].
  destruct (shr_fexp prec emax (Zpos p) e l) as [mrs' e'].
  simpl in Hm1, He1.
  pose proof (round_nearest_even_lower (shr_m mrs') (loc_of_shr_record mrs')) as Hr.
  destruct (round_nearest_even (shr_m mrs') (loc_of_shr_record mrs')) as [|q|q];
    try lia.
  destruct (shr_fexp_shape q e' loc_Exact ltac:(lia)) as [Hm2 He2].
  destruct (shr_fexp prec emax (Zpos q) e' loc_Exact) as [mrs'' e''].
  simpl in Hm2, He2.
  destruct (shr_m mrs'') as [|m|m]; try lia.
  destruct (e'' <=? emax - prec); [right|left; reflexivity].
  exists m, e''. split; [reflexivity|lia].
Qed.

Lemma ofZ_shape p :
  ofZ (Zpos p) = S754_infinity false
  \/ exists m e, ofZ (Zpos p) = S754_finite false m e
                 /\ Z.min 0 (Zpos (digits2_pos p) - 53) <= e.
Proof.
  unfold ofZ, binary_normalize, binary_round, shl_align.
  set (f := fexp prec emax (Zpos (digits2_pos p) + 0)).
  assert (Hf : Z.min 0 (Zpos (digits2_pos p) - 53) <= f /\ emin prec emax <= f).
  { unfold f, fexp, emin, prec, emax. lia. }
  destruct (f - 0) as [|d|d] eqn:Ed.
  - destruct (binary_round_aux_shape false p 0 loc_Exact) as [H|(m & e & H & Hle)];
      [unfold emin, prec, emax; lia| by left |].
    right. exists m, e. split; [exact H|lia].
  - destruct (binary_round_aux_shape false p 0 loc_Exact) as [H|(m & e & H & Hle)];
      [unfold emin, prec, emax; lia| by left |].
    right. exists m, e. split; [exact H|lia].
  - destruct (binary_round_aux_shape false (Pos.iter xO p d) f loc_Exact)
      as [H|(m & e & H & Hle)]; [lia| by left |].
    right. exists m, e. split; [exact H|lia].
Qed.

(** The Number value of a positive integer other than 1, 2 and 3 is above
    3. *)
Lemma ofZ_small_or_above p :
  ofZ (Zpos p) = lit "1" \/ ofZ (Zpos p) = lit "2" \/ ofZ (Zpos p) = lit "3"
  \/ le (ofZ (Zpos p)) (lit "3") = false.
Proof.
  assert (Hbig : 3 <= Zpos (digits2_pos p) -> le (ofZ (Zpos p)) (lit "3") = false).
  { intros Hd. rewrite lit_3.
    destruct (ofZ_shape p) as [-> | (m & e & -> & He)]; [reflexivity|].
    unfold le, SFleb, SFcompare.
    destruct (Z.compare_spec e (-51)); try lia; reflexivity. }
  destruct p as [[q|q|]|[q|q|]|];
    try (right; right; right; apply Hbig; simpl; lia).
  - right; right; left. vm_compute. reflexivity.
  - right; left. vm_compute. reflexivity.
  - left. vm_compute. reflexivity.
Qed.

Lemma seq_refl_lit :
  seq (lit "1") (lit "1") = true /\ seq (lit "2") (lit "2") = true
  /\ seq (lit "3") (lit "3") = true.
Proof. repeat split; vm_compute; reflexivity. Qed.

(** [parseInt] yields NaN, a zero, or the Number value of a positive integer
    or of its opposite; hence an id that passes the range check
    [id >= 1 && id <= 3] is one of 1, 2 and 3. *)
Lemma parseInt_in_range s :
  ge (parseInt s) (lit "1") && le (parseInt s) (lit "3") = true ->
  seq (parseInt s) (lit "1") = true \/ seq (parseInt s) (lit "2") = true
  \/ seq (parseInt s) (lit "3") = true.
Proof.
  unfold parseInt.
  destruct (signOf (trimStart s)) as [neg s0].
  destruct (match s0 with
            | 48%N :: x :: s' =>
                if ((x =? 120) || (x =? 88))%N then (16%N, s') else (10%N, s0)
            | _ => (10%N, s0)
            end) as [radix s1].
  destruct (span (isRadixDigit radix) s1) as [ds rest].
  destruct ds as [|c ds]; [discriminate|].
  destruct (digitsVal radix (c :: ds)) as [|n].
  { rewrite lit_1. destruct neg; discriminate. }
  destruct neg.
  - rewrite lit_1.
    destruct (ofZ_shape n) as [-> | (m & e & -> & _)]; discriminate.
  - destruct (ofZ_small_or_above n) as [-> | [-> | [-> | H]]].
    + intros _. left. apply seq_refl_lit.
    + intros _. right; left. apply seq_refl_lit.
    + intros _. right; right. apply seq_refl_lit.
    + rewrite H, andb_false_r. discriminate.
Qed.

(** ** Strings *)


Lemma trimStart_clean s : startsClean (trimStart s).
Proof.
  induction s as [|c s IH]; simpl; [exact I|].
  destruct (isWhiteSpace c) eqn:E; [exact IH|exact E].
Qed.

Lemma trimStart_id s : startsClean s -> trimStart s = s.
Proof. destruct s as [|c s]; simpl; [reflexivity|]. by intros ->. Qed.

Lemma trimStart_split s :
  exists w, s = w ++ trimStart s /\ Forall (fun c => isWhiteSpace c = true) w.
Proof.
  induction s as [|c s (w & Hs & Hw)]; simpl.
  - exists []. by split.
  - destruct (isWhiteSpace c) eqn:E.
    + exists (c :: w). split; [simpl; congruence|by constructor].
    + exists []. by split.
Qed.

Lemma trimEnd_split s :
  exists w, s = trimEnd s ++ w /\ Forall (fun c => isWhiteSpace c = true) w.
Proof.
  destruct (trimStart_split (rev s)) as (w & Hs & Hw).
  exists (rev w). split.
  - unfold trimEnd. rewrite <- rev_app_distr, <- Hs. by rewrite rev_involutive.
  - by apply Forall_rev.
Qed.

Lemma trimEnd_id s : startsClean (rev s) -> trimEnd s = s.
Proof.
  intros H. unfold trimEnd. rewrite (trimStart_id _ H). apply rev_involutive.
Qed.

Lemma trimEnd_startsClean s : startsClean s -> startsClean (trimEnd s).
Proof.
  intros H. destruct (trimEnd_split s) as (w & Hs & Hw).
  destruct (trimEnd s) as [|c t]; [exact I|].
  rewrite Hs in H. exact H.
Qed.

Lemma trim_id s : startsClean s -> startsClean (rev s) -> trim s = s.
Proof.
  intros H1 H2. unfold trim. rewrite (trimStart_id _ H1). by apply trimEnd_id.
Qed.

Lemma trim_idem s : trim (trim s) = trim s.
Proof.
  apply trim_id.
  - apply trimEnd_startsClean, trimStart_clean.
  - unfold trim, trimEnd. rewrite rev_involutive. apply trimStart_clean.
Qed.

(** ** The matcher *)

Lemma repeatMatcher_local m gs :
  suffixLocal m ->
  forall fuel min max, suffixLocal (repeatMatcher m gs fuel min max).
Proof.
  intros Hm fuel.
  induction fuel as [|fuel IH]; intros min max s caps k1 k2 Hk; [reflexivity|].
  simpl.
  assert (Hd : forall s' caps', (length s' <= length s)%nat ->
    (if ((min =? 0) && (length s' =? length s))%nat then None
     else repeatMatcher m gs fuel (Nat.pred min) (Nat.pred <$> max) s' caps' k1)
    = (if ((min =? 0) && (length s' =? length s))%nat then None
       else repeatMatcher m gs fuel (Nat.pred min) (Nat.pred <$> max) s' caps' k2)).
  { intros s' caps' Hs'. destruct (_ && _); [reflexivity|].
    apply IH. intros s'' caps'' Hs''. apply Hk. lia. }
  rewrite (Hm s (clearCaptures gs caps) _ _ Hd).
  rewrite (Hk s caps) by lia. reflexivity.
Qed.

Lemma matcher_local ic r : suffixLocal (matcher ic r).
Proof.
  induction r as [|c|cs|r1 IH1 r2 IH2|r1 IH1 r2 IH2|min max r1 IH1|n r1 IH1];
    intros s caps k1 k2 Hk;
    [simpl|simpl|simpl|simpl|simpl| |simpl].
  - by apply Hk.
  - destruct s as [|x s]; [reflexivity|].
    destruct (_ =? _)%N; [|reflexivity]. apply Hk. simpl. lia.
  - destruct s as [|x s]; [reflexivity|].
    destruct (existsb _ cs); [|reflexivity]. apply Hk. simpl. lia.
  - apply IH1. intros s' caps' Hs'. apply IH2.
    intros s'' caps'' Hs''. apply Hk. lia.
  - by rewrite (IH1 s caps k1 k2 Hk), (IH2 s caps k1 k2 Hk).
  - exact (repeatMatcher_local _ _ IH1 (S (min + length s)) min max s caps
             k1 k2 Hk).
  - apply IH1. intros s' caps' Hs'. by apply Hk.
Qed.

(** The fuel of the quantifier loop is enough: the result does not change
    with more of it. *)
Lemma repeatMatcher_fuel m gs :
  suffixLocal m ->
  forall n fuel1 fuel2 min max s caps k,
    (min + length s <= n)%nat ->
    (min + length s < fuel1)%nat -> (min + length s < fuel2)%nat ->
    repeatMatcher m gs fuel1 min max s caps k
    = repeatMatcher m gs fuel2 min max s caps k.
Proof.
  intros Hm n.
  induction n as [n IH] using lt_wf_ind.
  intros fuel1 fuel2 min max s caps k Hn H1 H2.
  destruct fuel1 as [|fuel1]; [lia|]. destruct fuel2 as [|fuel2]; [lia|].
  simpl.
  assert (Hd : forall s' caps', (length s' <= length s)%nat ->
    (if ((min =? 0) && (length s' =? length s))%nat then None
     else repeatMatcher m gs fuel1 (Nat.pred min) (Nat.pred <$> max) s' caps' k)
    = (if ((min =? 0) && (length s' =? length s))%nat then None
       else repeatMatcher m gs fuel2 (Nat.pred min) (Nat.pred <$> max) s' caps' k)).
  { intros s' caps' Hs'.
    destruct ((min =? 0) && (length s' =? length s))%nat eqn:E; [reflexivity|].
    assert (Nat.pred min + length s' < min + length s)%nat.
    { destruct min as [|min]; [|simpl; lia]. simpl in E.
      apply Nat.eqb_neq in E. simpl. lia. }
    apply (IH (Nat.pred min + length s')%nat); lia. }
  by rewrite (Hm s (clearCaptures gs caps) _ _ Hd).
Qed.

Lemma Quant_fuel ic min max r s caps k extra :
  repeatMatcher (matcher ic r) (groupsOf r) (S (min + length s) + extra)
    min max s caps k
  = matcher ic (Quant min max r) s caps k.
Proof.
  change (matcher ic (Quant min max r) s caps k)
    with (repeatMatcher (matcher ic r) (groupsOf r) (S (min + length s))
            min max s caps k).
  apply (repeatMatcher_fuel _ _ (matcher_local ic r) (min + length s)%nat); lia.
Qed.

(** ** Frame properties of the two parsing steps *)

Lemma gpsStep_frame cl now st :
  leftDanger (Fuzzy.gpsStep cl now st) = leftDanger st
  /\ rightDanger (Fuzzy.gpsStep cl now st) = rightDanger st
  /\ backDanger (Fuzzy.gpsStep cl now st) = backDanger st
  /\ sensors (Fuzzy.gpsStep cl now st) = sensors st
  /\ isConnected (Fuzzy.gpsStep cl now st) = isConnected st.
Proof.
  unfold Fuzzy.gpsStep.
  destruct (Fuzzy.gpsFields cl) as [[la lo] []]; simpl; auto.
Qed.

Lemma sensorStep_frame cl now st :
  gps (Fuzzy.sensorStep cl now st) = gps st
  /\ isConnected (Fuzzy.sensorStep cl now st) = isConnected st.
Proof.
  unfold Fuzzy.sensorStep.
  destruct (strMatch cl Fuzzy.sensorRe); [|auto].
  destruct (_ && _); simpl; auto.
Qed.

Lemma fuzzy_empty_no_match :
  strMatch [] Fuzzy.sensorRe = None /\ Fuzzy.gpsFields [] = (lit "0", lit "0", false).
Proof. split; vm_compute; reflexivity. Qed.

Lemma processLine_steps line now prev :
  Fuzzy.processLine line now prev
  = Fuzzy.gpsStep (trim line) now (Fuzzy.sensorStep (trim line) now prev).
Proof.
  unfold Fuzzy.processLine. destruct (trim line) eqn:E; [|reflexivity].
  unfold Fuzzy.gpsStep, Fuzzy.sensorStep.
  destruct fuzzy_empty_no_match as [-> ->]. reflexivity.
Qed.

Lemma strict_empty_no_match :
  strMatch [] Strict.sensorRe = None /\ strMatch [] Strict.gpsRe = None.
Proof. split; vm_compute; reflexivity. Qed.

Lemma handleData_bikeState text now app :
  Strict.bikeState (Strict.handleData (Some text) now app)
  = Strict.parseLine (trim text) now (Strict.bikeState app).
Proof.
  unfold Strict.handleData. destruct (trim text) eqn:E; [|reflexivity].
  unfold Strict.parseLine. destruct strict_empty_no_match as [-> ->].
  reflexivity.
Qed.

(** ** C10: the connection flag *)

(** C10. For every input line and previous state, both interpreters leave
    [isConnected] as it was: [processLine] of the fuzzy variant, and
    [handleData] of the strict variant for every characteristic value. *)
Theorem interpreter_keeps_isConnected :
  (forall line now prev,
      isConnected (Fuzzy.processLine line now prev) = isConnected prev)
  /\ (forall value now app,
      isConnected (Strict.bikeState (Strict.handleData value now app))
      = isConnected (Strict.bikeState app)).
Proof.
  split.
  - intros line now prev. rewrite processLine_steps.
    destruct (gpsStep_frame (trim line) now
                (Fuzzy.sensorStep (trim line) now prev)) as (_ & _ & _ & _ & ->).
    apply sensorStep_frame.
  - intros [text|] now app; [|reflexivity].
    rewrite handleData_bikeState. unfold Strict.parseLine.
    destruct (strMatch (trim text) Strict.gpsRe);
      destruct (strMatch (trim text) Strict.sensorRe); reflexivity.
Qed.

(** ** C8: the recent-log sequence *)

Lemma take_cons_take {A} (n : nat) (x : A) (l : list A) :
  take n (x :: take n l) = take n (x :: l).
Proof.
  destruct n as [|n]; [reflexivity|]. simpl. f_equal.
  rewrite take_take. f_equal. lia.
Qed.

(** Appending to the empty log keeps the [n] most recent messages, newest
    first. *)
Lemma appendAll_recent (n : nat) (msgs : list (list N)) :
  appendAll (fun msg prev => take n (msg :: prev)) msgs [] = take n (rev msgs).
Proof.
  unfold appendAll.
  induction msgs as [|msg msgs IH] using rev_ind; [by destruct n|].
  rewrite fold_left_app, rev_unit. simpl. rewrite IH.
  apply take_cons_take.
Qed.

(** C8. A non-empty line handed to [handleData] or to the serial reader is
    put at the head of the log ([addLog]), as is every line of the BLE
    listener of the fuzzy variant; the log of either variant never
    holds more than its bound (10 and 50 entries), whatever it held before;
    and after any sequence of appends to the initially empty log it consists
    of the most recent messages, newest first, so that the oldest entries are
    the ones dropped. *)
Theorem recent_log_bounded :
  (forall text now app, trim text <> [] ->
      Strict.logs (Strict.handleData (Some text) now app)
      = Strict.addLog (trim text) (Strict.logs app))
  /\ (forall line now app, trim line <> [] ->
      Fuzzy.logs (Fuzzy.serialLine line now app)
      = Fuzzy.addLog (js ">> " ++ trim line) (Fuzzy.logs app))
  /\ (forall text now app,
      Fuzzy.logs (Fuzzy.bleNotify text now app)
      = Fuzzy.addLog (js "BLE >> " ++ trim text) (Fuzzy.logs app))
  /\ (forall msg prev,
      Strict.addLog msg prev = msg :: take 9 prev
      /\ Fuzzy.addLog msg prev = msg :: take 49 prev)
  /\ (forall msg prev,
      (length (Strict.addLog msg prev) <= 10)%nat
      /\ (length (Fuzzy.addLog msg prev) <= 50)%nat)
  /\ (forall msgs,
      appendAll Strict.addLog msgs [] = take 10 (rev msgs)
      /\ appendAll Fuzzy.addLog msgs [] = take 50 (rev msgs)).
Proof.
  repeat split.
  - intros text now app Hne. unfold Strict.handleData.
    destruct (trim text); [congruence|reflexivity].
  - intros line now app Hne. unfold Fuzzy.serialLine.
    destruct (trim line); [congruence|reflexivity].
  - unfold Strict.addLog. rewrite length_take. lia.
  - unfold Fuzzy.addLog. rewrite length_take. lia.
  - apply (appendAll_recent 10).
  - apply (appendAll_recent 50).
Qed.

(** A line with leading and trailing blanks is logged trimmed, at the head
    of a log that was full, whose oldest entry is dropped. *)
Lemma recent_log_bounded_witness :
  let full := replicate 10 (js "old") in
  let app := {| Strict.bikeState := initialState; Strict.logs := full |} in
  Strict.logs (Strict.handleData (Some (js " ID 2: Distance = 7 cm ")) sampleTime app)
  = js "ID 2: Distance = 7 cm" :: replicate 9 (js "old")
  /\ Fuzzy.logs (Fuzzy.serialLine (js "S3: 12.0 ") sampleTime
       {| Fuzzy.bikeState := initialState; Fuzzy.logs := [] |})
     = [js ">> S3: 12.0"].
Proof.
  split.
  - rewrite (proj1 recent_log_bounded); [reflexivity|discriminate].
  - rewrite (proj1 (proj2 recent_log_bounded)); [reflexivity|discriminate].
Defined.

(** ** C6: unrecognised lines *)

Lemma fuzzy_unmatched line now prev :
  strMatch (trim line) Fuzzy.sensorRe = None ->
  strMatch (trim line) Fuzzy.latRe = None
    \/ strMatch (trim line) Fuzzy.lngRe = None ->
  strMatch (trim line) Fuzzy.commaGpsRe = None ->
  Fuzzy.processLine line now prev = prev.
Proof.
  intros Hs Hl Hc. rewrite processLine_steps.
  unfold Fuzzy.gpsStep, Fuzzy.sensorStep, Fuzzy.gpsFields.
  rewrite Hs, Hc. destruct Hl as [-> | ->]; [reflexivity|].
  destruct (strMatch (trim line) Fuzzy.latRe); reflexivity.
Qed.

Lemma strict_unmatched line now prev :
  strMatch line Strict.sensorRe = None ->
  strMatch line Strict.gpsRe = None ->
  Strict.parseLine line now prev = prev.
Proof. intros Hs Hg. unfold Strict.parseLine. by rewrite Hs, Hg. Qed.

(** C6. A line on which the sensor pattern does not match, the labelled GPS
    form does not match (one of its two sub-patterns fails) and the
    comma-separated form does not match is returned by [processLine] with the
    state it was given, and the serial reader changes nothing but the log;
    likewise [handleData], whose two patterns both fail, returns the same
    state with the line added to the log. *)
Theorem unrecognized_line_is_noop :
  (forall line now prev,
      strMatch (trim line) Fuzzy.sensorRe = None ->
      strMatch (trim line) Fuzzy.latRe = None
        \/ strMatch (trim line) Fuzzy.lngRe = None ->
      strMatch (trim line) Fuzzy.commaGpsRe = None ->
      Fuzzy.processLine line now prev = prev
      /\ forall logs,
         Fuzzy.bikeState (Fuzzy.serialLine line now
           {| Fuzzy.bikeState := prev; Fuzzy.logs := logs |}) = prev)
  /\ (forall text now app,
      trim text <> [] ->
      strMatch (trim text) Strict.sensorRe = None ->
      strMatch (trim text) Strict.gpsRe = None ->
      Strict.handleData (Some text) now app
      = {| Strict.bikeState := Strict.bikeState app;
           Strict.logs := Strict.addLog (trim text) (Strict.logs app) |}).
Proof.
  split.
  - intros line now prev Hs Hl Hc.
    split; [by apply fuzzy_unmatched|].
    intros logs.
    assert (Hp := fuzzy_unmatched (trim line) now prev).
    rewrite trim_idem in Hp. specialize (Hp Hs Hl Hc).
    unfold Fuzzy.serialLine. simpl.
    destruct (trim line); [reflexivity|exact Hp].
  - intros text now app Hne Hs Hg. unfold Strict.handleData.
    destruct (trim text) eqn:E; [congruence|].
    by rewrite strict_unmatched.
Qed.

Lemma unrecognized_line_is_noop_witness :
  Fuzzy.processLine (js "  hello world ") sampleTime initialState = initialState
  /\ Strict.handleData (Some (js "boot ok")) sampleTime sampleApp
     = {| Strict.bikeState := initialState; Strict.logs := [js "boot ok"] |}.
Proof.
  split.
  - apply (proj1 unrecognized_line_is_noop);
      [vm_compute; reflexivity | left; vm_compute; reflexivity
      | vm_compute; reflexivity].
  - apply (proj2 unrecognized_line_is_noop (js "boot ok") sampleTime sampleApp);
      [discriminate | vm_compute; reflexivity | vm_compute; reflexivity].
Defined.

(** ** C5: danger classification *)

Lemma range_guard_of_seq id :
  seq id (lit "1") = true \/ seq id (lit "2") = true \/ seq id (lit "3") = true ->
  ge id (lit "1") && le id (lit "3") = true.
Proof.
  rewrite lit_1, lit_2, lit_3.
  intros [H|[H|H]]; apply seq_finite_eq in H; subst id; vm_compute; reflexivity.
Qed.

Lemma sensorUpdater_classifies id d now prev :
  flagOfSensor id d (sensorUpdater id d (isDanger d) now prev).
Proof.
  unfold flagOfSensor.
  split; [|split]; intros H; apply isDanger_classifies; simpl; by rewrite H.
Qed.

Lemma flagOfSensor_frame id d st st' :
  leftDanger st' = leftDanger st -> rightDanger st' = rightDanger st ->
  backDanger st' = backDanger st ->
  flagOfSensor id d st -> flagOfSensor id d st'.
Proof.
  unfold flagOfSensor, classifies. intros -> -> ->. tauto.
Qed.

(** C5. On every line on which the sensor pattern matches with an id equal
    to 1, 2 or 3, the danger flag of that sensor in the resulting state is
    true exactly when the parsed distance [d] satisfies [0 < d] and
    [d < 150.0], and it is false whenever [d <= 0]; in [processLine] and in
    [handleData] alike. *)
Theorem danger_flag_classification :
  (forall line now prev m,
      strMatch (trim line) Fuzzy.sensorRe = Some m ->
      flagOfSensor (parseInt (item m 1)) (parseFloat (item m 2))
        (Fuzzy.processLine line now prev))
  /\ (forall text now app m,
      strMatch (trim text) Strict.sensorRe = Some m ->
      flagOfSensor (parseInt (item m 1)) (parseFloat (item m 2))
        (Strict.bikeState (Strict.handleData (Some text) now app))).
Proof.
  split.
  - intros line now prev m Hm. rewrite processLine_steps.
    destruct (gpsStep_frame (trim line) now
                (Fuzzy.sensorStep (trim line) now prev)) as (Hl & Hr & Hb & _).
    apply (flagOfSensor_frame _ _ _ _ Hl Hr Hb).
    unfold Fuzzy.sensorStep. rewrite Hm.
    destruct (ge _ _ && le _ _) eqn:Hg.
    + apply sensorUpdater_classifies.
    + unfold flagOfSensor.
      split; [|split]; intros H; exfalso;
        rewrite range_guard_of_seq in Hg by tauto; discriminate.
  - intros text now app m Hm. rewrite handleData_bikeState.
    unfold Strict.parseLine. rewrite Hm.
    destruct (strMatch (trim text) Strict.gpsRe).
    + eapply flagOfSensor_frame; [| | |apply sensorUpdater_classifies];
        reflexivity.
    + apply sensorUpdater_classifies.
Qed.

Lemma danger_flag_classification_witness :
  classifies backDanger (parseFloat (js "12.0"))
    (Fuzzy.processLine (js "S3: 12.0") sampleTime initialState)
  /\ classifies leftDanger (parseFloat (js "200.00"))
       (Strict.bikeState
          (Strict.handleData (Some (js "ID 1: Distance = 200.00 cm"))
             sampleTime sampleApp)).
Proof.
  split.
  - refine (proj2 (proj2 (proj1 danger_flag_classification (js "S3: 12.0")
        sampleTime initialState
        [Some (js "S3: 12.0"); Some (js "3"); Some (js "12.0")] _)) _);
      vm_compute; reflexivity.
  - refine (proj1 (proj2 danger_flag_classification
        (js "ID 1: Distance = 200.00 cm") sampleTime sampleApp
        [Some (js "ID 1: Distance = 200.00 cm"); Some (js "1");
         Some (js "200.00")] _) _);
      vm_compute; reflexivity.
Defined.

(** ** C1: the canonical strict sensor line *)

(** Evaluation of a closed term inside a goal that has free variables. *)
Ltac evaluate t :=
  let v := eval vm_compute in t in
  replace t with v by (vm_compute; reflexivity).

Lemma sensorUpdater_sensor id d b now prev i :
  sensor (sensorUpdater id d b now prev) i
  = if decide (propertyKey id = propertyKey i)
    then Some (SensorData.mk id d now) else sensor prev i.
Proof. unfold sensor, sensorUpdater. simpl. apply lookup_insert. Qed.

(** C1. The fuzzy sensor pattern asks for the number right after the
    separators that follow the id; in the canonical strict line the word
    "Distance" stands there, so the pattern does not match, and neither do
    the GPS patterns: [processLine] returns the state unchanged, for every
    previous state and timestamp. *)
Theorem fuzzy_ignores_canonical_strict_line :
  forall now prev,
    Fuzzy.processLine (js "ID 1: Distance = 42.50 cm") now prev = prev.
Proof.
  intros now prev.
  apply fuzzy_unmatched; [|left|]; vm_compute; reflexivity.
Qed.

(** [handleData] does on the canonical line what is claimed of it: sensor 1
    reads 42.5 at the current time, [leftDanger] is set, and the other two
    sensors and flags are as before. *)
Lemma strict_canonical_line now app :
  let st := Strict.bikeState app in
  let st' := Strict.bikeState
    (Strict.handleData (Some (js "ID 1: Distance = 42.50 cm")) now app) in
  sensor st' (lit "1") = Some (SensorData.mk (lit "1") (ofQuot false 85 2) now)
  /\ leftDanger st' = true
  /\ sensor st' (lit "2") = sensor st (lit "2")
  /\ sensor st' (lit "3") = sensor st (lit "3")
  /\ rightDanger st' = rightDanger st
  /\ backDanger st' = backDanger st.
Proof.
  intros st st'. subst st'. rewrite handleData_bikeState.
  evaluate (trim (js "ID 1: Distance = 42.50 cm")).
  unfold Strict.parseLine.
  match goal with |- context [strMatch ?l Strict.sensorRe] =>
    evaluate (strMatch l Strict.sensorRe); evaluate (strMatch l Strict.gpsRe)
  end.
  cbv beta iota zeta.
  match goal with |- context [sensorUpdater ?i ?d ?b] =>
    evaluate i; evaluate d; evaluate b
  end.
  rewrite !sensorUpdater_sensor. simpl.
  evaluate (lit "1"). evaluate (lit "2"). evaluate (lit "3").
  evaluate (ofQuot false 85 2).
  repeat split.
Qed.

(** ** C3: validity of the fix *)

Lemma gpsStep_gps cl now st lat lng :
  Fuzzy.gpsFields cl = (lat, lng, true) ->
  gps (Fuzzy.gpsStep cl now st)
  = GpsData.mk lat lng
      (gt (abs lat) (lit "0.0001") || gt (abs lng) (lit "0.0001")) now.
Proof. intros H. unfold Fuzzy.gpsStep. rewrite H. reflexivity. Qed.

Lemma fuzzy_gps line now prev lat lng :
  Fuzzy.gpsFields (trim line) = (lat, lng, true) ->
  gps (Fuzzy.processLine line now prev)
  = GpsData.mk lat lng
      (gt (abs lat) (lit "0.0001") || gt (abs lng) (lit "0.0001")) now.
Proof. intros H. rewrite processLine_steps. by apply gpsStep_gps. Qed.

Lemma strict_gps line now prev m :
  strMatch line Strict.gpsRe = Some m ->
  gps (Strict.parseLine line now prev)
  = GpsData.mk (parseFloat (item m 1)) (parseFloat (item m 2)) true now.
Proof. intros H. unfold Strict.parseLine. rewrite H. reflexivity. Qed.

Lemma strict_gps_unmatched line now prev :
  strMatch line Strict.gpsRe = None ->
  gps (Strict.parseLine line now prev) = gps prev.
Proof.
  intros H. unfold Strict.parseLine. rewrite H.
  destruct (strMatch line Strict.sensorRe); reflexivity.
Qed.

(** In the strict variant the near-zero fix is marked valid, although
    neither coordinate exceeds the epsilon. *)
Lemma strict_near_zero_fix_is_valid :
  let g := gps (Strict.bikeState
    (Strict.handleData (Some (js "Lat: 0.00001 Lng: 0.00001"))
       sampleTime sampleApp)) in
  GpsData.valid g = true
  /\ gt (abs (GpsData.lat g)) (lit "0.0001")
     || gt (abs (GpsData.lng g)) (lit "0.0001") = false.
Proof. vm_compute. split; reflexivity. Qed.

(** C3, amended. In the fuzzy variant, whenever the GPS parsing finds a
    position (labelled form or comma-separated fallback) the new fix holds
    the two parsed coordinates, the current time, and
    [valid = |lat| > 0.0001 || |lng| > 0.0001]; the line
    "Lat: 0.00001 Lng: 0.00001" gives [valid = false] from every state. In
    the strict variant every match of the labelled pattern stores
    [valid = true]. *)
Theorem gps_validity :
  (forall line now prev lat lng,
      Fuzzy.gpsFields (trim line) = (lat, lng, true) ->
      gps (Fuzzy.processLine line now prev)
      = GpsData.mk lat lng
          (gt (abs lat) (lit "0.0001") || gt (abs lng) (lit "0.0001")) now)
  /\ (forall now prev,
      GpsData.valid
        (gps (Fuzzy.processLine (js "Lat: 0.00001 Lng: 0.00001") now prev))
      = false)
  /\ (forall text now app m,
      strMatch (trim text) Strict.gpsRe = Some m ->
      gps (Strict.bikeState (Strict.handleData (Some text) now app))
      = GpsData.mk (parseFloat (item m 1)) (parseFloat (item m 2)) true now).
Proof.
  split; [|split].
  - apply fuzzy_gps.
  - intros now prev.
    rewrite (fuzzy_gps _ now prev (ofQuot false 1 100000) (ofQuot false 1 100000))
      by (vm_compute; reflexivity).
    vm_compute. reflexivity.
  - intros text now app m Hm. rewrite handleData_bikeState.
    by apply strict_gps.
Qed.

Lemma gps_validity_witness :
  gps (Fuzzy.processLine (js "34.0522, -118.2437") sampleTime initialState)
  = GpsData.mk (ofQuot false 340522 10000) (ofQuot true 1182437 10000)
      true sampleTime
  /\ gps (Strict.bikeState
       (Strict.handleData (Some (js "Lat: 0 Lng: 0")) sampleTime sampleApp))
     = GpsData.mk (lit "0") (lit "0") true sampleTime.
Proof.
  split.
  - rewrite (proj1 gps_validity _ sampleTime initialState
      (ofQuot false 340522 10000) (ofQuot true 1182437 10000));
      vm_compute; reflexivity.
  - rewrite (proj2 (proj2 gps_validity) _ sampleTime sampleApp
      [Some (js "Lat: 0 Lng: 0"); Some (js "0"); Some (js "0")]);
      vm_compute; reflexivity.
Defined.

(** ** C7: the comma-separated fallback *)

(** In the strict variant the unlabelled pair leaves the fix where it was,
    while the labelled line moves it. *)
Lemma strict_has_no_fallback :
  GpsData.lat (gps (Strict.bikeState
    (Strict.handleData (Some (js "34.05,-118.24")) sampleTime sampleApp)))
  <> GpsData.lat (gps (Strict.bikeState
    (Strict.handleData (Some (js "Lat: 34.05 Lng: -118.24")) sampleTime
       sampleApp))).
Proof. vm_compute. discriminate. Qed.

(** C7, amended. In the fuzzy variant the labelled form has priority: when
    both label sub-patterns match, their captures give the position; only
    otherwise is the comma-separated pair tried, and when it matches its two
    captures give the position. For every previous state and time,
    "34.05,-118.24" and "Lat: 34.05 Lng: -118.24" produce the same fix,
    (34.05, -118.24), valid. The strict variant has no fallback: the
    unlabelled pair leaves its fix unchanged. *)
Theorem gps_fallback :
  (forall cleanLine,
      match strMatch cleanLine Fuzzy.latRe, strMatch cleanLine Fuzzy.lngRe with
      | Some latMatch, Some lngMatch =>
          Fuzzy.gpsFields cleanLine
          = (parseFloat (item latMatch 1), parseFloat (item lngMatch 1), true)
      | _, _ =>
          match strMatch cleanLine Fuzzy.commaGpsRe with
          | Some commaGpsMatch =>
              Fuzzy.gpsFields cleanLine
              = (parseFloat (item commaGpsMatch 1),
                 parseFloat (item commaGpsMatch 2), true)
          | None => snd (Fuzzy.gpsFields cleanLine) = false
          end
      end)
  /\ (forall now prev,
      gps (Fuzzy.processLine (js "34.05,-118.24") now prev)
      = GpsData.mk (ofQuot false 3405 100) (ofQuot true 11824 100) true now
      /\ gps (Fuzzy.processLine (js "Lat: 34.05 Lng: -118.24") now prev)
         = gps (Fuzzy.processLine (js "34.05,-118.24") now prev))
  /\ (forall now app,
      gps (Strict.bikeState
             (Strict.handleData (Some (js "34.05,-118.24")) now app))
      = gps (Strict.bikeState app)).
Proof.
  split; [|split].
  - intros cl. unfold Fuzzy.gpsFields.
    destruct (strMatch cl Fuzzy.latRe), (strMatch cl Fuzzy.lngRe),
      (strMatch cl Fuzzy.commaGpsRe); reflexivity.
  - intros now prev.
    rewrite !(fuzzy_gps _ now prev (ofQuot false 3405 100) (ofQuot true 11824 100))
      by (vm_compute; reflexivity).
    split; [vm_compute|]; reflexivity.
  - intros now app. rewrite handleData_bikeState.
    apply strict_gps_unmatched. vm_compute. reflexivity.
Qed.

(** ** C2: sensor ids outside 1..3 *)

Lemma propertyKey_neq id c :
  (c = lit "1" \/ c = lit "2" \/ c = lit "3") ->
  seq id c = false -> propertyKey id <> propertyKey c.
Proof.
  intros Hc Hne Heq.
  assert (propertyKey c = c /\ seq c c = true /\ forall s, c <> S754_zero s)
    as (Hk & Hr & Hz).
  { destruct Hc as [-> | [-> | ->]]; repeat split; try discriminate;
      vm_compute; reflexivity. }
  rewrite Hk in Heq.
  destruct id; simpl in Heq; try (rewrite Heq, Hr in Hne; discriminate).
  by destruct (Hz false).
Qed.

Lemma sensorUpdater_other id d b now prev :
  seq id (lit "1") = false -> seq id (lit "2") = false ->
  seq id (lit "3") = false ->
  let st' := sensorUpdater id d b now prev in
  sensor st' (lit "1") = sensor prev (lit "1")
  /\ sensor st' (lit "2") = sensor prev (lit "2")
  /\ sensor st' (lit "3") = sensor prev (lit "3")
  /\ leftDanger st' = leftDanger prev
  /\ rightDanger st' = rightDanger prev
  /\ backDanger st' = backDanger prev.
Proof.
  intros H1 H2 H3 st'. subst st'. rewrite !sensorUpdater_sensor.
  rewrite !decide_False by (apply propertyKey_neq; auto).
  simpl. by rewrite H1, H2, H3.
Qed.

(** The strict variant stores the reading of an id outside 1..3: the sensor
    map is no longer the one it was. *)
Lemma strict_stores_out_of_range_id :
  let line := js "ID 7: Distance = 12 cm" in
  let st' := Strict.bikeState (Strict.handleData (Some line) sampleTime sampleApp) in
  exists m, strMatch line Strict.sensorRe = Some m
    /\ parseInt (item m 1) = lit "7"
    /\ sensors st' <> sensors (Strict.bikeState sampleApp).
Proof.
  eexists. split; [vm_compute; reflexivity|]. split; [vm_compute; reflexivity|].
  intros H. apply (f_equal (fun s => s !! propertyKey (lit "7"))) in H.
  vm_compute in H. discriminate.
Qed.

(** C2, amended. On every line whose sensor id is none of 1, 2 and 3, the
    readings of the sensors 1, 2 and 3 and the three danger flags are after
    the call what they were before, in both variants. [processLine], which
    checks the range, applies no update to the sensor map at all;
    [handleData], which has no such check, stores the reading under the id
    it was given. *)
Theorem out_of_range_id :
  (forall line now prev m,
      strMatch (trim line) Fuzzy.sensorRe = Some m ->
      let id := parseInt (item m 1) in
      seq id (lit "1") = false -> seq id (lit "2") = false ->
      seq id (lit "3") = false ->
      let st' := Fuzzy.processLine line now prev in
      sensors st' = sensors prev
      /\ leftDanger st' = leftDanger prev
      /\ rightDanger st' = rightDanger prev
      /\ backDanger st' = backDanger prev)
  /\ (forall text now app m,
      strMatch (trim text) Strict.sensorRe = Some m ->
      let id := parseInt (item m 1) in
      seq id (lit "1") = false -> seq id (lit "2") = false ->
      seq id (lit "3") = false ->
      let st := Strict.bikeState app in
      let st' := Strict.bikeState (Strict.handleData (Some text) now app) in
      sensor st' (lit "1") = sensor st (lit "1")
      /\ sensor st' (lit "2") = sensor st (lit "2")
      /\ sensor st' (lit "3") = sensor st (lit "3")
      /\ leftDanger st' = leftDanger st
      /\ rightDanger st' = rightDanger st
      /\ backDanger st' = backDanger st
      /\ sensor st' id
         = Some (SensorData.mk id (parseFloat (item m 2)) now)).
Proof.
  split.
  - intros line now prev m Hm id H1 H2 H3 st'. subst st'.
    rewrite processLine_steps.
    destruct (gpsStep_frame (trim line) now
                (Fuzzy.sensorStep (trim line) now prev))
      as (-> & -> & -> & -> & _).
    unfold Fuzzy.sensorStep. rewrite Hm. fold id.
    destruct (ge id (lit "1") && le id (lit "3")) eqn:Hg; [|by repeat split].
    apply parseInt_in_range in Hg. fold id in Hg.
    rewrite H1, H2, H3 in Hg. by destruct Hg as [?|[?|?]].
  - intros text now app m Hm id H1 H2 H3 st st'. subst st st'.
    rewrite handleData_bikeState. unfold Strict.parseLine. rewrite Hm. fold id.
    set (upd := sensorUpdater id _ _ now _).
    assert (Hg : forall st2, st2 = upd \/
                (exists la lo, st2 = gpsUpdater la lo true now upd) ->
              sensor st2 (lit "1") = sensor upd (lit "1")
              /\ sensor st2 (lit "2") = sensor upd (lit "2")
              /\ sensor st2 (lit "3") = sensor upd (lit "3")
              /\ leftDanger st2 = leftDanger upd
              /\ rightDanger st2 = rightDanger upd
              /\ backDanger st2 = backDanger upd
              /\ sensor st2 id = sensor upd id).
    { intros st2 [-> | (la & lo & ->)]; by repeat split. }
    match goal with |- context [sensor ?s (lit "1")] =>
      destruct (Hg s) as (-> & -> & -> & -> & -> & -> & ->)
    end.
    { destruct (strMatch (trim text) Strict.gpsRe); eauto. }
    destruct (sensorUpdater_other id (parseFloat (item m 2))
                (isDanger (parseFloat (item m 2))) now (Strict.bikeState app)
                H1 H2 H3) as (? & ? & ? & ? & ? & ?).
    repeat split; try assumption.
    subst upd. rewrite sensorUpdater_sensor. by rewrite decide_True.
Qed.

Lemma out_of_range_id_witness :
  sensors (Fuzzy.processLine (js "Sensor 4 = 20") sampleTime initialState)
  = sensors initialState
  /\ sensor (Strict.bikeState
       (Strict.handleData (Some (js "ID 7: Distance = 12 cm")) sampleTime
          sampleApp)) (lit "1")
     = sensor initialState (lit "1").
Proof.
  split.
  - refine (proj1 (proj1 out_of_range_id (js "Sensor 4 = 20") sampleTime
      initialState [Some (js "Sensor 4 = 20"); Some (js "4"); Some (js "20")]
      _ _ _ _)); vm_compute; reflexivity.
  - refine (proj1 (proj2 out_of_range_id (js "ID 7: Distance = 12 cm")
      sampleTime sampleApp
      [Some (js "ID 7: Distance = 12 cm"); Some (js "7"); Some (js "12")]
      _ _ _ _)); vm_compute; reflexivity.
Defined.

(** ** C4: captures that do not parse *)

Lemma gpsStep_gps_indep cl now st1 st2 :
  gps st1 = gps st2 ->
  gps (Fuzzy.gpsStep cl now st1) = gps (Fuzzy.gpsStep cl now st2).
Proof.
  intros H. unfold Fuzzy.gpsStep.
  destruct (Fuzzy.gpsFields cl) as [[la lo] []]; [reflexivity|exact H].
Qed.

Lemma sensorUpdater_nan id now prev :
  let st' := sensorUpdater id NaN (isDanger NaN) now prev in
  sensor st' id = Some (SensorData.mk id NaN now)
  /\ (seq id (lit "1") = true -> leftDanger st' = false)
  /\ (seq id (lit "2") = true -> rightDanger st' = false)
  /\ (seq id (lit "3") = true -> backDanger st' = false).
Proof.
  intros st'. subst st'. rewrite sensorUpdater_sensor, decide_True by done.
  simpl. repeat split; by intros ->.
Qed.

(** The distance "." parses to NaN, and the reading of sensor 1 is
    overwritten with it. *)
Lemma nan_distance_overwrites_reading :
  let line := js "S1: ." in
  exists m, strMatch line Fuzzy.sensorRe = Some m
    /\ parseFloat (item m 2) = NaN
    /\ sensor (Fuzzy.processLine line sampleTime initialState) (lit "1")
       <> sensor initialState (lit "1").
Proof.
  eexists. split; [vm_compute; reflexivity|]. split; [vm_compute; reflexivity|].
  vm_compute. discriminate.
Qed.

(** C4, amended. No value of the captures makes the interpreter fail, and a
    capture that parses to NaN is stored like any other. A NaN distance
    replaces the reading of its sensor by [{id, NaN, now}] and clears the
    flag of that sensor ([processLine] when the id passes the range check,
    [handleData] for every id). A NaN coordinate is stored in the new fix,
    whose [valid] is then decided by the other coordinate in [processLine]
    and is [true] in [handleData]. The other match of the line is processed
    as if it stood alone. *)
Theorem nan_capture_is_stored :
  (forall line now prev m,
      strMatch (trim line) Fuzzy.sensorRe = Some m ->
      parseFloat (item m 2) = NaN ->
      let id := parseInt (item m 1) in
      ge id (lit "1") && le id (lit "3") = true ->
      let st' := Fuzzy.processLine line now prev in
      sensor st' id = Some (SensorData.mk id NaN now)
      /\ (seq id (lit "1") = true -> leftDanger st' = false)
      /\ (seq id (lit "2") = true -> rightDanger st' = false)
      /\ (seq id (lit "3") = true -> backDanger st' = false)
      /\ gps st' = gps (Fuzzy.gpsStep (trim line) now prev))
  /\ (forall line now prev lat lng,
      Fuzzy.gpsFields (trim line) = (lat, lng, true) ->
      lat = NaN \/ lng = NaN ->
      let st' := Fuzzy.processLine line now prev in
      GpsData.lat (gps st') = lat /\ GpsData.lng (gps st') = lng
      /\ GpsData.lastUpdate (gps st') = now
      /\ (lat = NaN -> GpsData.valid (gps st') = gt (abs lng) (lit "0.0001"))
      /\ (lng = NaN -> GpsData.valid (gps st') = gt (abs lat) (lit "0.0001"))
      /\ sensors st' = sensors (Fuzzy.sensorStep (trim line) now prev))
  /\ (forall text now app m,
      strMatch (trim text) Strict.sensorRe = Some m ->
      parseFloat (item m 2) = NaN ->
      let id := parseInt (item m 1) in
      let st' := Strict.bikeState (Strict.handleData (Some text) now app) in
      sensor st' id = Some (SensorData.mk id NaN now)
      /\ (seq id (lit "1") = true -> leftDanger st' = false)
      /\ (seq id (lit "2") = true -> rightDanger st' = false)
      /\ (seq id (lit "3") = true -> backDanger st' = false)
      /\ forall g, strMatch (trim text) Strict.gpsRe = Some g ->
           gps st' = GpsData.mk (parseFloat (item g 1))
                       (parseFloat (item g 2)) true now).
Proof.
  split; [|split].
  - intros line now prev m Hm Hd id Hg st'. subst st'.
    rewrite processLine_steps.
    rewrite (gpsStep_gps_indep _ _ _ prev)
      by apply sensorStep_frame.
    destruct (gpsStep_frame (trim line) now
                (Fuzzy.sensorStep (trim line) now prev))
      as (-> & -> & -> & Hs & _).
    unfold sensor. rewrite Hs. unfold Fuzzy.sensorStep.
    rewrite Hm, Hd. fold id. rewrite Hg.
    destruct (sensorUpdater_nan id now prev) as (? & ? & ? & ?).
    by repeat split.
  - intros line now prev lat lng Hf Hnan st'. subst st'.
    rewrite (fuzzy_gps _ _ _ _ _ Hf).
    cbn [GpsData.lat GpsData.lng GpsData.valid GpsData.lastUpdate].
    repeat split.
    + by intros ->.
    + intros ->. apply orb_false_r.
    + rewrite processLine_steps. apply gpsStep_frame.
  - intros text now app m Hm Hd id st'. subst st'.
    rewrite handleData_bikeState. unfold Strict.parseLine.
    rewrite Hm, Hd. fold id.
    destruct (sensorUpdater_nan id now (Strict.bikeState app))
      as (? & ? & ? & ?).
    destruct (strMatch (trim text) Strict.gpsRe) as [g|];
      repeat split; try assumption; intros g' Hg'; by simplify_eq.
Qed.

Lemma nan_capture_is_stored_witness :
  let st' := Fuzzy.processLine (js "S1: . Lat: 1.5 Lng: 2.5") sampleTime
               initialState in
  (sensor st' (lit "1") = Some (SensorData.mk (lit "1") NaN sampleTime)
   /\ leftDanger st' = false
   /\ gps st' = GpsData.mk (lit "1.5") (lit "2.5") true sampleTime)
  /\ GpsData.valid
       (gps (Fuzzy.processLine (js "Lat: - Lng: 2.5") sampleTime initialState))
     = true
  /\ sensor (Strict.bikeState
       (Strict.handleData (Some (js "ID 2: Distance = . cm")) sampleTime
          sampleApp)) (lit "2")
     = Some (SensorData.mk (lit "2") NaN sampleTime).
Proof.
  intros st'. subst st'. split; [|split].
  - destruct (proj1 nan_capture_is_stored (js "S1: . Lat: 1.5 Lng: 2.5")
      sampleTime initialState [Some (js "S1: ."); Some (js "1"); Some (js ".")])
      as (H1 & H2 & _ & _ & H3); try (vm_compute; reflexivity).
    split; [exact H1|]. split; [apply H2; vm_compute; reflexivity|].
    rewrite H3. vm_compute. reflexivity.
  - destruct (proj1 (proj2 nan_capture_is_stored) (js "Lat: - Lng: 2.5")
      sampleTime initialState NaN (lit "2.5")) as (_ & _ & _ & H & _);
      [vm_compute; reflexivity | by left |].
    rewrite H by reflexivity. vm_compute. reflexivity.
  - refine (proj1 (proj2 (proj2 nan_capture_is_stored)
      (js "ID 2: Distance = . cm") sampleTime sampleApp
      [Some (js "ID 2: Distance = . cm"); Some (js "2"); Some (js ".")] _ _));
      vm_compute; reflexivity.
Defined.

(** ** C9: labelled coordinates in either order *)

Lemma chars_consumes ic p : consumes ic (chars p) p.
Proof.
  induction p as [|c p IH]; intros s caps k z Hk; simpl; [exact Hk|].
  rewrite N.eqb_refl. by apply IH.
Qed.

Lemma Alt_consumes_l ic r1 r2 p : consumes ic r1 p -> consumes ic (Alt r1 r2) p.
Proof. intros H s caps k z Hk. simpl. by rewrite (H s caps k z Hk). Qed.

Lemma take_app_minus {A} (w r : list A) :
  take (length (w ++ r) - length r) (w ++ r) = w.
Proof.
  rewrite length_app. replace (length w + length r - length r)%nat
    with (length w) by lia.
  by rewrite take_app_length.
Qed.

(** A greedy quantifier over a character class takes a whole run of
    characters of the class when the continuation accepts what follows. *)
Lemma repeat_class_greedy ic cs k z caps rest :
  stopsAt ic cs rest -> k rest caps = Some z ->
  forall w fuel min,
    Forall (fun c => inClass ic cs c = true) w ->
    (min <= length w)%nat -> (min + length (w ++ rest) < fuel)%nat ->
    repeatMatcher (matcher ic (Class cs)) [] fuel min None (w ++ rest) caps k
    = Some z.
Proof.
  intros Hstop Hk w.
  induction w as [|c w IH]; intros fuel min Hw Hmin Hfuel.
  - destruct fuel as [|fuel]; [lia|]. destruct min; [|simpl in Hmin; lia].
    simpl. destruct rest as [|c rest]; [exact Hk|].
    simpl in Hstop. unfold inClass in Hstop. by rewrite Hstop.
  - destruct fuel as [|fuel]; [lia|]. inversion Hw as [|? ? Hc Hw']; subst.
    unfold inClass in Hc.
    assert (Hrec : repeatMatcher (matcher ic (Class cs)) [] fuel (Nat.pred min)
                     None (w ++ rest) caps k = Some z).
    { apply IH; [exact Hw'| simpl in Hmin; lia | simpl in Hfuel; lia]. }
    assert (Hlen : (length (w ++ rest) =? length ((c :: w) ++ rest))%nat = false).
    { apply Nat.eqb_neq. simpl. lia. }
    destruct min; simpl; rewrite Hc; simpl in Hlen; rewrite ?Hlen;
      simpl in Hrec; by rewrite Hrec.
Qed.

Lemma Quant_class_greedy ic cs min w rest caps k z :
  Forall (fun c => inClass ic cs c = true) w -> (min <= length w)%nat ->
  stopsAt ic cs rest -> k rest caps = Some z ->
  matcher ic (Quant min None (Class cs)) (w ++ rest) caps k = Some z.
Proof.
  intros Hw Hmin Hstop Hk.
  change (repeatMatcher (matcher ic (Class cs)) []
            (S (min + length (w ++ rest))) min None (w ++ rest) caps k = Some z).
  apply repeat_class_greedy; auto.
Qed.

Lemma numChar_cases c :
  numChar c = true ->
  In c [45; 46; 48; 49; 50; 51; 52; 53; 54; 55; 56; 57]%N.
Proof.
  unfold numChar, isDigit.
  rewrite !orb_true_iff, andb_true_iff, N.leb_le, N.leb_le, !N.eqb_eq.
  intros H. simpl. lia.
Qed.

(** Case analysis on a character of a coordinate. *)
Ltac each_numChar H :=
  apply numChar_cases in H; simpl in H;
  repeat (destruct H as [H|H]; [subst|]); [..|contradiction].

Lemma numChar_inClass c : numChar c = true -> inClass true numClass c = true.
Proof. intros H. each_numChar H; reflexivity. Qed.

Lemma numChar_not_sep c : numChar c = true -> inClass true sepClass c = false.
Proof. intros H. each_numChar H; reflexivity. Qed.

Lemma numChar_not_space c : numChar c = true -> isWhiteSpace c = false.
Proof. intros H. each_numChar H; reflexivity. Qed.

(** A labelled coordinate: when the label part [L] of the pattern consumes
    the text [lbl], the pattern matches [lbl: a] at the start of the input
    and captures the whole coordinate [a]. *)
Lemma labelled_matchAt L lbl a rest :
  groupsOf L = [] -> consumes true L lbl ->
  a <> [] -> Forall (fun c => numChar c = true) a -> stopsAt true numClass rest ->
  matchAt {| pattern := Cat [L; Plus (Class sepClass); Group 1 (Plus (Class numClass))];
             ignoreCase := true |} (lbl ++ js ": " ++ a ++ rest)
  = Some [Some (lbl ++ js ": " ++ a); Some a].
Proof.
  intros HL Hlbl Ha Hnum Hrest. unfold matchAt. cbn [pattern ignoreCase].
  assert (Hn : nCaptures (Cat [L; Plus (Class sepClass);
                               Group 1 (Plus (Class numClass))]) = 1%nat).
  { unfold nCaptures. simpl. rewrite HL. reflexivity. }
  rewrite Hn. cbn [Cat foldr].
  change (matcher true (Seq L ?r) ?s ?c ?k)
    with (matcher true L s c (fun s' c' => matcher true r s' c' k)).
  apply Hlbl.
  change (matcher true (Seq ?r1 ?r) ?s ?c ?k)
    with (matcher true r1 s c (fun s' c' => matcher true r s' c' k)).
  apply (Quant_class_greedy true sepClass 1 (js ": ")).
  - repeat constructor.
  - simpl. lia.
  - destruct a as [|c a]; [done|]. simpl. apply numChar_not_sep.
    by inversion Hnum.
  - cbn [matcher].
    change (repeatMatcher (matcher true (Class numClass)) [] ?f 1 None ?s ?c ?k)
      with (matcher true (Plus (Class numClass)) s c k).
    apply Quant_class_greedy.
    + eapply Forall_impl; [exact Hnum|]. apply numChar_inClass.
    + destruct a; [done|simpl; lia].
    + exact Hrest.
    + rewrite take_app_minus.
      replace (length (lbl ++ js ": " ++ a ++ rest) - length rest)%nat
        with (length (lbl ++ js ": " ++ a)).
      2:{ rewrite !length_app. lia. }
      replace (lbl ++ js ": " ++ a ++ rest) with ((lbl ++ js ": " ++ a) ++ rest)
        by (by rewrite <- !app_assoc).
      rewrite take_app_length. reflexivity.
Qed.

Lemma labelled_matchAt_end L lbl a :
  groupsOf L = [] -> consumes true L lbl ->
  a <> [] -> Forall (fun c => numChar c = true) a ->
  matchAt {| pattern := Cat [L; Plus (Class sepClass); Group 1 (Plus (Class numClass))];
             ignoreCase := true |} (lbl ++ js ": " ++ a)
  = Some [Some (lbl ++ js ": " ++ a); Some a].
Proof.
  intros HL Hlbl Ha Hnum.
  pose proof (labelled_matchAt L lbl a [] HL Hlbl Ha Hnum I) as H.
  by rewrite app_nil_r in H.
Qed.

Lemma exec_hit re s z : matchAt re s = Some z -> exec re s = Some z.
Proof. intros H. destruct s; simpl; by rewrite H. Qed.

Lemma exec_miss re c s : matchAt re (c :: s) = None -> exec re (c :: s) = exec re s.
Proof. intros H. simpl. by rewrite H. Qed.

(** The search passes over a stretch of characters at none of which the
    pattern can start. *)
Lemma exec_skip re w rest :
  Forall (fun c => forall s, matchAt re (c :: s) = None) w ->
  exec re (w ++ rest) = exec re rest.
Proof.
  induction 1 as [|c w Hc Hw IH]; [reflexivity|].
  simpl app. rewrite exec_miss by apply Hc. exact IH.
Qed.

Lemma numChar_no_lat c s : numChar c = true -> matchAt Fuzzy.latRe (c :: s) = None.
Proof. intros H. each_numChar H; vm_compute; reflexivity. Qed.

Lemma numChar_no_lng c s : numChar c = true -> matchAt Fuzzy.lngRe (c :: s) = None.
Proof. intros H. each_numChar H; vm_compute; reflexivity. Qed.

Lemma lat_consumes :
  consumes true (Alt (Str "Lat") (Alt (Str "Latitude") (Str "GPS"))) (js "Lat").
Proof. apply Alt_consumes_l, chars_consumes. Qed.

Lemma lng_consumes :
  consumes true (Alt (Str "Lng") (Alt (Str "Longitude") (Str "Lon"))) (js "Lng").
Proof. apply Alt_consumes_l, chars_consumes. Qed.

Section Coordinates.

Variables a b : list N.
Hypothesis a_nonempty : a <> [].
Hypothesis b_nonempty : b <> [].
Hypothesis a_num : Forall (fun c => numChar c = true) a.
Hypothesis b_num : Forall (fun c => numChar c = true) b.

Lemma latFirst_lat :
  strMatch (js "Lat: " ++ a ++ js " Lng: " ++ b) Fuzzy.latRe
  = Some [Some (js "Lat: " ++ a); Some a].
Proof.
  apply exec_hit.
  apply (labelled_matchAt _ (js "Lat") a (js " Lng: " ++ b));
    auto using lat_consumes.
  reflexivity.
Qed.

Lemma latFirst_lng :
  strMatch (js "Lat: " ++ a ++ js " Lng: " ++ b) Fuzzy.lngRe
  = Some [Some (js "Lng: " ++ b); Some b].
Proof.
  unfold strMatch.
  change (js "Lat: " ++ a ++ js " Lng: " ++ b)
    with (76 :: 97 :: 116 :: 58 :: 32 :: a ++ 32 :: js "Lng" ++ js ": " ++ b)%N.
  rewrite !exec_miss by (vm_compute; reflexivity).
  rewrite exec_skip
    by (eapply Forall_impl; [exact a_num|]; intros c Hc s;
        by apply numChar_no_lng).
  rewrite exec_miss by (vm_compute; reflexivity).
  apply exec_hit.
  apply (labelled_matchAt_end _ (js "Lng") b); auto using lng_consumes.
Qed.

Lemma lngFirst_lng :
  strMatch (js "Lng: " ++ b ++ js " Lat: " ++ a) Fuzzy.lngRe
  = Some [Some (js "Lng: " ++ b); Some b].
Proof.
  apply exec_hit.
  apply (labelled_matchAt _ (js "Lng") b (js " Lat: " ++ a));
    auto using lng_consumes.
  reflexivity.
Qed.

Lemma lngFirst_lat :
  strMatch (js "Lng: " ++ b ++ js " Lat: " ++ a) Fuzzy.latRe
  = Some [Some (js "Lat: " ++ a); Some a].
Proof.
  unfold strMatch.
  change (js "Lng: " ++ b ++ js " Lat: " ++ a)
    with (76 :: 110 :: 103 :: 58 :: 32 :: b ++ 32 :: js "Lat" ++ js ": " ++ a)%N.
  rewrite !exec_miss by (vm_compute; reflexivity).
  rewrite exec_skip
    by (eapply Forall_impl; [exact b_num|]; intros c Hc s;
        by apply numChar_no_lat).
  rewrite exec_miss by (vm_compute; reflexivity).
  apply exec_hit.
  apply (labelled_matchAt_end _ (js "Lat") a); auto using lat_consumes.
Qed.

Lemma ends_with_coordinate (p w : list N) :
  w <> [] -> Forall (fun c => numChar c = true) w -> startsClean (rev (p ++ w)).
Proof.
  intros Hne Hw. destruct w as [|c w _] using rev_ind; [done|].
  rewrite app_assoc, rev_unit. simpl.
  apply numChar_not_space. rewrite Forall_app, Forall_singleton in Hw. tauto.
Qed.

Lemma latFirst_fields :
  Fuzzy.gpsFields (trim (js "Lat: " ++ a ++ js " Lng: " ++ b))
  = (parseFloat a, parseFloat b, true).
Proof.
  rewrite trim_id.
  - unfold Fuzzy.gpsFields. by rewrite latFirst_lat, latFirst_lng.
  - reflexivity.
  - rewrite !app_assoc. by apply ends_with_coordinate.
Qed.

Lemma lngFirst_fields :
  Fuzzy.gpsFields (trim (js "Lng: " ++ b ++ js " Lat: " ++ a))
  = (parseFloat a, parseFloat b, true).
Proof.
  rewrite trim_id.
  - unfold Fuzzy.gpsFields. by rewrite lngFirst_lat, lngFirst_lng.
  - reflexivity.
  - rewrite !app_assoc. by apply ends_with_coordinate.
Qed.

End Coordinates.

(** C9. For all non-empty coordinate texts [a] and [b] over the characters
    of the capture class (digits, [.] and [-]), [processLine] produces the
    same fix from "Lng: b Lat: a" as from "Lat: a Lng: b": its latitude is
    the Number parsed from [a] and its longitude the one parsed from [b],
    whichever label comes first. *)
Theorem labelled_order_irrelevant :
  forall (a b : list N) now prev,
    a <> [] -> b <> [] ->
    Forall (fun c => numChar c = true) a ->
    Forall (fun c => numChar c = true) b ->
    let latFirst := js "Lat: " ++ a ++ js " Lng: " ++ b in
    let lngFirst := js "Lng: " ++ b ++ js " Lat: " ++ a in
    gps (Fuzzy.processLine lngFirst now prev)
    = gps (Fuzzy.processLine latFirst now prev)
    /\ GpsData.lat (gps (Fuzzy.processLine lngFirst now prev)) = parseFloat a
    /\ GpsData.lng (gps (Fuzzy.processLine lngFirst now prev)) = parseFloat b.
Proof.
  intros a b now prev Ha Hb Hna Hnb latFirst lngFirst. subst latFirst lngFirst.
  rewrite (fuzzy_gps _ now prev _ _ (lngFirst_fields a b Ha Hb Hna Hnb)).
  rewrite (fuzzy_gps _ now prev _ _ (latFirst_fields a b Ha Hb Hna Hnb)).
  repeat split.
Qed.

Lemma labelled_order_irrelevant_witness :
  gps (Fuzzy.processLine (js "Lng: -118.2437 Lat: 34.0522") sampleTime initialState)
  = gps (Fuzzy.processLine (js "Lat: 34.0522 Lng: -118.2437") sampleTime initialState)
  /\ GpsData.lat (gps (Fuzzy.processLine (js "Lng: -118.2437 Lat: 34.0522")
                         sampleTime initialState))
     = ofQuot false 340522 10000.
Proof.
  destruct (labelled_order_irrelevant (js "34.0522") (js "-118.2437")
              sampleTime initialState) as (H1 & H2 & _);
    [discriminate | discriminate | by vm_compute; repeat constructor
    | by vm_compute; repeat constructor |].
  split; [exact H1|]. etransitivity; [exact H2|]. vm_compute. reflexivity.
Defined.

(** * Further properties of the two components *)

(** ** Invariants of the reachable states *)

Lemma lit_keys :
  propertyKey (lit "1") = lit "1" /\ propertyKey (lit "2") = lit "2"
  /\ propertyKey (lit "3") = lit "3".
Proof. repeat split. Qed.

Lemma seq_lits_distinct :
  seq (lit "1") (lit "2") = false /\ seq (lit "1") (lit "3") = false
  /\ seq (lit "2") (lit "1") = false /\ seq (lit "2") (lit "3") = false
  /\ seq (lit "3") (lit "1") = false /\ seq (lit "3") (lit "2") = false.
Proof. repeat split; vm_compute; reflexivity. Qed.

Lemma seq_lit_eq id c :
  c = lit "1" \/ c = lit "2" \/ c = lit "3" -> seq id c = true -> id = c.
Proof.
  intros [-> | [-> | ->]]; rewrite ?lit_1, ?lit_2, ?lit_3; apply seq_finite_eq.
Qed.

Lemma sensorOk_frame i flag st st' :
  sensor st' i = sensor st i -> flag st' = flag st ->
  sensorOk i flag st -> sensorOk i flag st'.
Proof. unfold sensorOk. intros -> ->. tauto. Qed.

Lemma consistent_frame st st' :
  sensors st' = sensors st -> leftDanger st' = leftDanger st ->
  rightDanger st' = rightDanger st -> backDanger st' = backDanger st ->
  consistent st -> consistent st'.
Proof.
  intros Hs Hl Hr Hb (H1 & H2 & H3).
  assert (Hk : forall i, sensor st' i = sensor st i)
    by (intros i; unfold sensor; by rewrite Hs).
  split; [|split].
  - exact (sensorOk_frame _ _ _ _ (Hk _) Hl H1).
  - exact (sensorOk_frame _ _ _ _ (Hk _) Hr H2).
  - exact (sensorOk_frame _ _ _ _ (Hk _) Hb H3).
Qed.

Lemma sensorUpdater_consistent id d now prev :
  consistent prev -> consistent (sensorUpdater id d (isDanger d) now prev).
Proof.
  intros (H1 & H2 & H3).
  destruct seq_lits_distinct as (D12 & D13 & D21 & D23 & D31 & D32).
  destruct seq_refl_lit as (R1 & R2 & R3).
  assert (Hhit : forall i flag,
    i = lit "1" \/ i = lit "2" \/ i = lit "3" ->
    flag (sensorUpdater i d (isDanger d) now prev) = isDanger d ->
    sensorOk i flag (sensorUpdater i d (isDanger d) now prev)).
  { intros i flag Hi Hf. exists (SensorData.mk i d now).
    rewrite sensorUpdater_sensor, decide_True by done. by repeat split. }
  assert (Hmiss : forall i' i flag,
    i = lit "1" \/ i = lit "2" \/ i = lit "3" ->
    seq i' i = false ->
    flag (sensorUpdater i' d (isDanger d) now prev) = flag prev ->
    sensorOk i flag prev ->
    sensorOk i flag (sensorUpdater i' d (isDanger d) now prev)).
  { intros i' i flag Hi Hne Hf. apply sensorOk_frame; [|exact Hf].
    rewrite sensorUpdater_sensor, decide_False; [done|].
    by apply propertyKey_neq. }
  destruct (seq id (lit "1")) eqn:E1.
  { apply seq_lit_eq in E1; [subst id|tauto].
    repeat split; [apply Hhit|apply Hmiss|apply Hmiss]; auto;
      simpl; rewrite ?R1, ?D12, ?D13; reflexivity. }
  destruct (seq id (lit "2")) eqn:E2.
  { apply seq_lit_eq in E2; [subst id|tauto].
    repeat split; [apply Hmiss|apply Hhit|apply Hmiss]; auto;
      simpl; rewrite ?R2, ?D21, ?D23; reflexivity. }
  destruct (seq id (lit "3")) eqn:E3.
  { apply seq_lit_eq in E3; [subst id|tauto].
    repeat split; [apply Hmiss|apply Hmiss|apply Hhit]; auto;
      simpl; rewrite ?R3, ?D31, ?D32; reflexivity. }
  repeat split; apply Hmiss; auto; simpl; rewrite ?E1, ?E2, ?E3; reflexivity.
Qed.

Lemma initialState_consistent : consistent initialState.
Proof.
  repeat split; eexists; (split; [vm_compute; reflexivity|]);
    split; vm_compute; reflexivity.
Qed.

Lemma processLine_consistent line now st :
  consistent st -> consistent (Fuzzy.processLine line now st).
Proof.
  intros H. rewrite processLine_steps.
  destruct (gpsStep_frame (trim line) now (Fuzzy.sensorStep (trim line) now st))
    as (Hl & Hr & Hb & Hs & _).
  apply (consistent_frame _ _ Hs Hl Hr Hb).
  unfold Fuzzy.sensorStep. destruct (strMatch (trim line) Fuzzy.sensorRe); [|done].
  destruct (_ && _); [|done]. by apply sensorUpdater_consistent.
Qed.

Lemma parseLine_consistent line now st :
  consistent st -> consistent (Strict.parseLine line now st).
Proof.
  intros H. unfold Strict.parseLine.
  assert (H' : consistent
    match strMatch line Strict.sensorRe with
    | Some m => sensorUpdater (parseInt (item m 1)) (parseFloat (item m 2))
                  (isDanger (parseFloat (item m 2))) now st
    | None => st
    end).
  { destruct (strMatch line Strict.sensorRe); [|done].
    by apply sensorUpdater_consistent. }
  destruct (strMatch line Strict.gpsRe); [|done].
  eapply consistent_frame; [..|exact H']; reflexivity.
Qed.

Lemma fuzzy_run_snoc evs ev :
  FuzzySession.run (evs ++ [ev]) = FuzzySession.step (FuzzySession.run evs) ev.
Proof. unfold FuzzySession.run. by rewrite fold_left_app. Qed.

Lemma strict_run_snoc evs ev :
  StrictSession.run (evs ++ [ev]) = StrictSession.step (StrictSession.run evs) ev.
Proof. unfold StrictSession.run. by rewrite fold_left_app. Qed.

(** X1. Whatever lines and connection changes have been processed since the
    start, in either component, each of the sensors 1, 2 and 3 has a reading,
    the reading carries the id it is stored under, and the danger flag of
    the sensor is the classification [0 < d < 150.0] of the distance that is
    retained. *)
Theorem flags_follow_retained_readings :
  (forall evs, consistent (FuzzySession.run evs))
  /\ (forall evs, consistent (Strict.bikeState (StrictSession.run evs))).
Proof.
  split; intros evs; induction evs as [|ev evs IH] using rev_ind;
    try apply initialState_consistent.
  - rewrite fuzzy_run_snoc. destruct ev as [line now|b]; simpl.
    + by apply processLine_consistent.
    + eapply consistent_frame; [..|exact IH]; reflexivity.
  - rewrite strict_run_snoc. destruct ev as [value now|b|msg]; simpl.
    + destruct value as [text|]; [|exact IH].
      rewrite handleData_bikeState. by apply parseLine_consistent.
    + eapply consistent_frame; [..|exact IH]; reflexivity.
    + exact IH.
Qed.

Lemma fuzzy_sensors_keys_step line now st :
  (forall k, is_Some (sensors st !! k)
             <-> k = lit "1" \/ k = lit "2" \/ k = lit "3") ->
  forall k, is_Some (sensors (Fuzzy.processLine line now st) !! k)
            <-> k = lit "1" \/ k = lit "2" \/ k = lit "3".
Proof.
  intros H k. rewrite processLine_steps.
  destruct (gpsStep_frame (trim line) now (Fuzzy.sensorStep (trim line) now st))
    as (_ & _ & _ & -> & _).
  unfold Fuzzy.sensorStep. destruct (strMatch (trim line) Fuzzy.sensorRe) as [m|]; [|done].
  destruct (ge _ _ && le _ _) eqn:Hg; [|done].
  apply parseInt_in_range in Hg.
  assert (Hid : parseInt (item m 1) = lit "1" \/ parseInt (item m 1) = lit "2"
                \/ parseInt (item m 1) = lit "3").
  { destruct Hg as [Hg|[Hg|Hg]]; apply seq_lit_eq in Hg; tauto. }
  simpl. rewrite lookup_insert. case_decide as Hk.
  - split; [intros _|by eauto]. subst k.
    destruct Hid as [-> | [-> | ->]]; tauto.
  - apply H.
Qed.

(** X2. The fuzzy component never adds or removes a sensor: in every state
    it reaches, the sensor map has exactly the three keys 1, 2 and 3. *)
Theorem fuzzy_keeps_three_sensors :
  forall evs k,
    is_Some (sensors (FuzzySession.run evs) !! k)
    <-> k = lit "1" \/ k = lit "2" \/ k = lit "3".
Proof.
  intros evs. induction evs as [|ev evs IH] using rev_ind.
  - intros k. unfold FuzzySession.run, initialState.
    cbn [fold_left sensors].
    destruct lit_keys as (-> & -> & ->).
    rewrite !lookup_insert_is_Some, lookup_empty. split.
    + intros [<- | [_ [<- | [_ [<- | [_ H]]]]]]; auto. by destruct (is_Some_None H).
    + intros Hk.
      destruct (decide (lit "3" = k)); [by left|right; split; [done|]].
      destruct (decide (lit "2" = k)); [by left|right; split; [done|]].
      destruct (decide (lit "1" = k)); [by left|].
      destruct Hk as [-> | [-> | ->]]; congruence.
  - rewrite fuzzy_run_snoc. destruct ev as [line now|b]; simpl.
    + by apply fuzzy_sensors_keys_step.
    + exact IH.
Qed.

Lemma fuzzy_keeps_three_sensors_witness :
  is_Some (sensors (FuzzySession.run
                      [FuzzySession.Line (js "S7: 12") sampleTime;
                       FuzzySession.Connection true]) !! lit "2")
  /\ ~ is_Some (sensors (FuzzySession.run
                           [FuzzySession.Line (js "S7: 12") sampleTime;
                            FuzzySession.Connection true]) !! lit "7.5").
Proof.
  split.
  - apply fuzzy_keeps_three_sensors. right. left. reflexivity.
  - intros H. apply fuzzy_keeps_three_sensors in H.
    destruct H as [H | [H | H]]; vm_compute in H; discriminate H.
Defined.

(** ** The fix *)

Lemma fuzzy_valid_step line now st :
  GpsData.valid (gps st) = hasFix (gps st) ->
  GpsData.valid (gps (Fuzzy.processLine line now st))
  = hasFix (gps (Fuzzy.processLine line now st)).
Proof.
  intros H. rewrite processLine_steps. unfold Fuzzy.gpsStep.
  destruct (Fuzzy.gpsFields (trim line)) as [[la lo] []]; [reflexivity|].
  by rewrite (proj1 (sensorStep_frame _ _ _)).
Qed.

Lemma strict_valid_step line now st :
  GpsData.valid (gps st) = true \/ gps st = gps initialState ->
  GpsData.valid (gps (Strict.parseLine line now st)) = true
  \/ gps (Strict.parseLine line now st) = gps initialState.
Proof.
  intros H. destruct (strMatch line Strict.gpsRe) as [m|] eqn:E.
  - left. by rewrite (strict_gps _ _ _ _ E).
  - by rewrite (strict_gps_unmatched _ _ _ E).
Qed.

(** X3. In every state the fuzzy component reaches, [gps.valid] is the
    epsilon test of the coordinates it holds. In every state the strict
    component reaches, the fix is either still the initial one or valid: a
    fix, once received, never becomes invalid again. *)
Theorem valid_reflects_the_fix :
  (forall evs,
      GpsData.valid (gps (FuzzySession.run evs))
      = hasFix (gps (FuzzySession.run evs)))
  /\ (forall evs,
      GpsData.valid (gps (Strict.bikeState (StrictSession.run evs))) = true
      \/ gps (Strict.bikeState (StrictSession.run evs)) = gps initialState).
Proof.
  split; intros evs; induction evs as [|ev evs IH] using rev_ind.
  - vm_compute. reflexivity.
  - rewrite fuzzy_run_snoc. destruct ev as [line now|b]; simpl; [|exact IH].
    by apply fuzzy_valid_step.
  - by right.
  - rewrite strict_run_snoc. destruct ev as [value now|b|msg]; simpl;
      try exact IH.
    destruct value as [text|]; [|exact IH].
    rewrite handleData_bikeState. by apply strict_valid_step.
Qed.

(** ** How updates compose *)


Lemma sensorUpdater_comm id1 d1 b1 t1 id2 d2 b2 t2 st :
  propertyKey id1 <> propertyKey id2 ->
  sensorUpdater id1 d1 b1 t1 (sensorUpdater id2 d2 b2 t2 st)
  = sensorUpdater id2 d2 b2 t2 (sensorUpdater id1 d1 b1 t1 st).
Proof.
  intros Hne.
  assert (Hx : forall c, c = lit "1" \/ c = lit "2" \/ c = lit "3" ->
                 seq id1 c = true -> seq id2 c = true -> False).
  { intros c Hc H1 H2. apply Hne.
    by rewrite (seq_lit_eq _ _ Hc H1), (seq_lit_eq _ _ Hc H2). }
  unfold sensorUpdater. simpl. f_equal.
  - destruct (seq id1 (lit "1")) eqn:E1, (seq id2 (lit "1")) eqn:E2; try done.
    destruct (Hx (lit "1")); auto.
  - destruct (seq id1 (lit "2")) eqn:E1, (seq id2 (lit "2")) eqn:E2; try done.
    destruct (Hx (lit "2")); auto.
  - destruct (seq id1 (lit "3")) eqn:E1, (seq id2 (lit "3")) eqn:E2; try done.
    destruct (Hx (lit "3")); auto.
  - by apply insert_insert_ne.
Qed.




Lemma sensorStep_gpsStep_comm l1 t1 l2 t2 st :
  Fuzzy.sensorStep l1 t1 (Fuzzy.gpsStep l2 t2 st)
  = Fuzzy.gpsStep l2 t2 (Fuzzy.sensorStep l1 t1 st).
Proof.
  unfold Fuzzy.sensorStep, Fuzzy.gpsStep.
  destruct (Fuzzy.gpsFields l2) as [[la lo] []]; [|done].
  destruct (strMatch l1 Fuzzy.sensorRe); [|done]. by destruct (_ && _).
Qed.




Lemma fuzzy_sensor_gps_comm l1 t1 l2 t2 st :
  snd (Fuzzy.gpsFields (trim l1)) = false ->
  strMatch (trim l2) Fuzzy.sensorRe = None ->
  Fuzzy.processLine l2 t2 (Fuzzy.processLine l1 t1 st)
  = Fuzzy.processLine l1 t1 (Fuzzy.processLine l2 t2 st).
Proof.
  intros H1 H2. rewrite !processLine_steps.
  assert (Hg : forall s, Fuzzy.gpsStep (trim l1) t1 s = s).
  { intros s. unfold Fuzzy.gpsStep.
    destruct (Fuzzy.gpsFields (trim l1)) as [[la lo] f]. simpl in H1. by subst f. }
  assert (Hs : forall s, Fuzzy.sensorStep (trim l2) t2 s = s).
  { intros s. unfold Fuzzy.sensorStep. by rewrite H2. }
  by rewrite !Hg, !Hs, sensorStep_gpsStep_comm.
Qed.

Lemma fuzzy_two_sensors_comm l1 t1 l2 t2 st m1 m2 :
  snd (Fuzzy.gpsFields (trim l1)) = false ->
  snd (Fuzzy.gpsFields (trim l2)) = false ->
  strMatch (trim l1) Fuzzy.sensorRe = Some m1 ->
  strMatch (trim l2) Fuzzy.sensorRe = Some m2 ->
  propertyKey (parseInt (item m1 1)) <> propertyKey (parseInt (item m2 1)) ->
  Fuzzy.processLine l2 t2 (Fuzzy.processLine l1 t1 st)
  = Fuzzy.processLine l1 t1 (Fuzzy.processLine l2 t2 st).
Proof.
  intros G1 G2 H1 H2 Hne. rewrite !processLine_steps.
  assert (Hg : forall l t s, snd (Fuzzy.gpsFields l) = false ->
                 Fuzzy.gpsStep l t s = s).
  { intros l t s Hl. unfold Fuzzy.gpsStep.
    destruct (Fuzzy.gpsFields l) as [[la lo] f]. simpl in Hl. by subst f. }
  rewrite !Hg by assumption.
  unfold Fuzzy.sensorStep. rewrite H1, H2.
  destruct (ge (parseInt (item m1 1)) _ && _), (ge (parseInt (item m2 1)) _ && _);
    try done.
  symmetry. by apply sensorUpdater_comm.
Qed.

(** X5. Two lines whose updates touch different parts of the state can be
    processed in either order: a line without a position and a line without
    a sensor reading commute, and so do two sensor lines without position
    that name different sensors. *)
Theorem independent_lines_commute :
  (forall l1 t1 l2 t2 st,
      snd (Fuzzy.gpsFields (trim l1)) = false ->
      strMatch (trim l2) Fuzzy.sensorRe = None ->
      Fuzzy.processLine l2 t2 (Fuzzy.processLine l1 t1 st)
      = Fuzzy.processLine l1 t1 (Fuzzy.processLine l2 t2 st))
  /\ (forall l1 t1 l2 t2 st m1 m2,
      snd (Fuzzy.gpsFields (trim l1)) = false ->
      snd (Fuzzy.gpsFields (trim l2)) = false ->
      strMatch (trim l1) Fuzzy.sensorRe = Some m1 ->
      strMatch (trim l2) Fuzzy.sensorRe = Some m2 ->
      propertyKey (parseInt (item m1 1)) <> propertyKey (parseInt (item m2 1)) ->
      Fuzzy.processLine l2 t2 (Fuzzy.processLine l1 t1 st)
      = Fuzzy.processLine l1 t1 (Fuzzy.processLine l2 t2 st)).
Proof.
  split; [apply fuzzy_sensor_gps_comm|apply fuzzy_two_sensors_comm].
Qed.

Lemma independent_lines_commute_witness :
  Fuzzy.processLine (js "Lat: 34.0522 Lng: -118.2437") (lit "2000")
    (Fuzzy.processLine (js "S3: 12.0") (lit "1000") initialState)
  = Fuzzy.processLine (js "S3: 12.0") (lit "1000")
      (Fuzzy.processLine (js "Lat: 34.0522 Lng: -118.2437") (lit "2000")
         initialState)
  /\ Fuzzy.processLine (js "Sensor 2 = 88") (lit "2000")
       (Fuzzy.processLine (js "S3: 12.0") (lit "1000") initialState)
     = Fuzzy.processLine (js "S3: 12.0") (lit "1000")
         (Fuzzy.processLine (js "Sensor 2 = 88") (lit "2000") initialState).
Proof.
  split.
  - apply (proj1 independent_lines_commute); vm_compute; reflexivity.
  - apply (proj2 independent_lines_commute _ _ _ _ _
      [Some (js "S3: 12.0"); Some (js "3"); Some (js "12.0")]
      [Some (js "Sensor 2 = 88"); Some (js "2"); Some (js "88")]);
      try (vm_compute; reflexivity).
    vm_compute. discriminate.
Defined.

(** ** White space around a line *)

Lemma trimStart_blank w s : blank w -> trimStart (w ++ s) = trimStart s.
Proof. induction 1 as [|c w Hc _ IH]; [done|]. simpl. by rewrite Hc. Qed.

Lemma trimStart_blank_nil w : blank w -> trimStart w = [].
Proof.
  intros H. rewrite <- (app_nil_r w). by rewrite trimStart_blank.
Qed.

Lemma trimStart_app_blank s w :
  blank w -> trimStart (s ++ w)
             = match trimStart s with [] => [] | _ => trimStart s ++ w end.
Proof.
  intros Hw. induction s as [|c s IH]; simpl.
  - by apply trimStart_blank_nil.
  - destruct (isWhiteSpace c); [exact IH|reflexivity].
Qed.

Lemma trimEnd_blank s w : blank w -> trimEnd (s ++ w) = trimEnd s.
Proof.
  intros Hw. unfold trimEnd. rewrite rev_app_distr.
  rewrite trimStart_blank; [done|]. by apply Forall_rev.
Qed.

Lemma trim_surrounded w1 s w2 :
  blank w1 -> blank w2 -> trim (w1 ++ s ++ w2) = trim s.
Proof.
  intros H1 H2. unfold trim.
  rewrite trimStart_blank, trimStart_app_blank by assumption.
  destruct (trimStart s) eqn:E; [done|]. by rewrite trimEnd_blank.
Qed.

Lemma blank_trim s : blank s -> trim s = [].
Proof. intros H. unfold trim. by rewrite trimStart_blank_nil. Qed.

(** X6. White space around a line does not matter: carriage returns, tabs,
    blanks or any other white space before and after the text leave the
    result of [processLine], of [handleData] and of the serial reader's
    line handler unchanged. In particular the second [trim] of the serial
    reader is harmless. *)
Theorem surrounding_white_space_is_ignored :
  forall w1 w2 s now,
    blank w1 -> blank w2 ->
    (forall st,
        Fuzzy.processLine (w1 ++ s ++ w2) now st = Fuzzy.processLine s now st)
    /\ (forall app,
        Fuzzy.serialLine (w1 ++ s ++ w2) now app = Fuzzy.serialLine s now app)
    /\ (forall app,
        Strict.handleData (Some (w1 ++ s ++ w2)) now app
        = Strict.handleData (Some s) now app)
    /\ (forall st,
        Fuzzy.processLine (trim s) now st = Fuzzy.processLine s now st).
Proof.
  intros w1 w2 s now H1 H2.
  pose proof (trim_surrounded w1 s w2 H1 H2) as Ht.
  repeat split.
  - intros st. by rewrite !processLine_steps, Ht.
  - intros app. unfold Fuzzy.serialLine. by rewrite Ht.
  - intros app. unfold Strict.handleData. by rewrite Ht.
  - intros st. by rewrite !processLine_steps, trim_idem.
Qed.

Lemma surrounding_white_space_is_ignored_witness :
  Fuzzy.processLine (js "  S3: 12.0" ++ [13%N]) sampleTime initialState
  = Fuzzy.processLine (js "S3: 12.0") sampleTime initialState.
Proof.
  apply (proj1 (surrounding_white_space_is_ignored (js "  ") [13%N]
                  (js "S3: 12.0") sampleTime
                  ltac:(repeat constructor) ltac:(repeat constructor))).
Defined.

(** X7. A message without text is dropped by [handleData] and by the serial
    reader, which change neither the state nor the log; [processLine]
    returns the state it was given; the BLE listener of the fuzzy component
    still logs the bare prefix. *)
Theorem blank_input :
  forall text now,
    blank text ->
    (forall app, Strict.handleData (Some text) now app = app)
    /\ (forall app, Fuzzy.serialLine text now app = app)
    /\ (forall st, Fuzzy.processLine text now st = st)
    /\ (forall app,
        Fuzzy.bleNotify text now app
        = {| Fuzzy.bikeState := Fuzzy.bikeState app;
             Fuzzy.logs := Fuzzy.addLog (js "BLE >> ") (Fuzzy.logs app) |}).
Proof.
  intros text now Hb. pose proof (blank_trim _ Hb) as Ht.
  repeat split.
  - intros app. unfold Strict.handleData. by rewrite Ht.
  - intros app. unfold Fuzzy.serialLine. by rewrite Ht.
  - intros st. unfold Fuzzy.processLine. by rewrite Ht.
  - intros app. unfold Fuzzy.bleNotify. rewrite Ht. reflexivity.
Qed.

Lemma blank_input_witness :
  Strict.handleData (Some (js "  " ++ [13; 10]%N)) sampleTime sampleApp = sampleApp.
Proof.
  apply (proj1 (blank_input (js "  " ++ [13; 10]%N) sampleTime
                  ltac:(repeat constructor))).
Defined.

(** ** The serial reader *)

Lemma split_frame s :
  removelast (SerialReader.split 10 s) = fst (frame s)
  /\ last (SerialReader.split 10 s) = Some (snd (frame s)).
Proof.
  induction s as [|c s [IH1 IH2]]; [done|]. simpl.
  destruct (frame s) as [ls r]. simpl in IH1, IH2.
  destruct (SerialReader.split 10 s) as [|p ps] eqn:E; [done|].
  destruct (c =? 10)%N.
  - change (removelast ([] :: p :: ps)) with ([] :: removelast (p :: ps)).
    rewrite IH1. by rewrite last_cons_cons.
  - destruct ps as [|q ps].
    + simpl in *. subst ls. by simplify_eq.
    + change (removelast ((c :: p) :: q :: ps))
        with ((c :: p) :: removelast (q :: ps)).
      rewrite last_cons_cons.
      change (removelast (p :: q :: ps)) with (p :: removelast (q :: ps)) in IH1.
      rewrite last_cons_cons in IH2. subst ls. by rewrite IH2.
Qed.

Lemma readChunk_frame value clock r :
  SerialReader.readChunk value clock r
  = {| SerialReader.buffer := snd (frame (SerialReader.buffer r ++ value));
       SerialReader.app :=
         SerialReader.forEach (fst (frame (SerialReader.buffer r ++ value)))
           clock (SerialReader.app r) |}.
Proof.
  unfold SerialReader.readChunk.
  destruct (split_frame (SerialReader.buffer r ++ value)) as [-> ->]. reflexivity.
Qed.

Lemma forEach_app l1 l2 clock a :
  SerialReader.forEach (l1 ++ l2) clock a
  = SerialReader.forEach l2 (fun i => clock (length l1 + i)%nat)
      (SerialReader.forEach l1 clock a).
Proof.
  revert clock a. induction l1 as [|l l1 IH]; intros clock a; [reflexivity|].
  simpl. by rewrite IH.
Qed.



Lemma frame_without_line_feed s : 10%N ∉ s -> frame s = ([], s).
Proof.
  induction s as [|c s IH]; [done|]. rewrite not_elem_of_cons. intros [Hc Hs].
  simpl. rewrite (IH Hs). destruct (N.eqb_spec c 10); congruence.
Qed.

Lemma frame_app s1 s2 :
  frame (s1 ++ s2)
  = (fst (frame s1) ++ fst (frame (snd (frame s1) ++ s2)),
     snd (frame (snd (frame s1) ++ s2))).
Proof.
  induction s1 as [|c s1 IH]; simpl.
  - by destruct (frame s2).
  - rewrite IH. destruct (frame s1) as [l1 r1]. simpl.
    destruct (frame (r1 ++ s2)) as [l2 r2] eqn:E2. simpl.
    destruct (c =? 10)%N eqn:Ec; simpl; [by rewrite E2|].
    destruct l1 as [|p ps]; simpl; [|by rewrite E2].
    rewrite E2, Ec. by destruct l2.
Qed.


(** X9. Where the stream is cut into chunks does not matter: reading two
    chunks one after the other leaves the reader (buffer, state and log) as
    reading their concatenation at once does, from any reader, when every
    line is handled at the same clock reading in both runs; and a chunk
    without line feed is only added to the buffer, whatever it holds. *)
Theorem chunk_boundaries_do_not_matter :
  (forall v1 v2 clock r,
      let n1 := length (removelast
                          (SerialReader.split 10 (SerialReader.buffer r ++ v1))) in
      SerialReader.readChunk v2 (fun i => clock (n1 + i)%nat)
        (SerialReader.readChunk v1 clock r)
      = SerialReader.readChunk (v1 ++ v2) clock r)
  /\ (forall value clock r,
      10%N ∉ SerialReader.buffer r -> 10%N ∉ value ->
      SerialReader.readChunk value clock r
      = {| SerialReader.buffer := SerialReader.buffer r ++ value;
           SerialReader.app := SerialReader.app r |}).
Proof.
  split.
  - intros v1 v2 clock r n1. subst n1.
    destruct (split_frame (SerialReader.buffer r ++ v1)) as [-> _].
    rewrite !readChunk_frame. simpl.
    rewrite (app_assoc (SerialReader.buffer r)).
    rewrite (frame_app (SerialReader.buffer r ++ v1) v2). simpl.
    by rewrite forEach_app.
  - intros value clock r Hb Hv. rewrite readChunk_frame.
    rewrite frame_without_line_feed; [done|].
    rewrite elem_of_app. tauto.
Qed.

Lemma chunk_boundaries_do_not_matter_witness :
  let r0 := {| SerialReader.buffer := [];
               SerialReader.app := {| Fuzzy.bikeState := initialState;
                                      Fuzzy.logs := [] |} |} in
  SerialReader.readChunk (js "S3: 1") (fun _ => sampleTime) r0
  = {| SerialReader.buffer := js "S3: 1"; SerialReader.app := SerialReader.app r0 |}.
Proof.
  intros r0.
  apply (proj2 chunk_boundaries_do_not_matter (js "S3: 1") (fun _ => sampleTime) r0).
  - apply not_elem_of_nil.
  - intros H. vm_compute in H. by repeat (inversion H as [|? ? ? H']; subst; clear H; rename H' into H).
Defined.

(** ** What a match tells about the line *)

Lemma repeatMatcher_consumed ic r fuel :
  (forall s caps k z, matcher ic r s caps k = Some z ->
     exists s' caps', consumed ic r s caps s' caps' /\ k s' caps' = Some z) ->
  forall min max s caps k z,
    repeatMatcher (matcher ic r) (groupsOf r) fuel min max s caps k = Some z ->
    exists s' caps', consumed ic (Quant min max r) s caps s' caps'
                     /\ k s' caps' = Some z.
Proof.
  intros Hr. induction fuel as [|fuel IH]; intros min max s caps k z H;
    [discriminate|].
  simpl in H.
  assert (Hstep : forall d,
    d = (fun s' caps' =>
           if ((min =? 0) && (length s' =? length s))%nat then None
           else repeatMatcher (matcher ic r) (groupsOf r) fuel (Nat.pred min)
                  (Nat.pred <$> max) s' caps' k) ->
    matcher ic r s (clearCaptures (groupsOf r) caps) d = Some z ->
    exists s' caps', consumed ic (Quant min max r) s caps s' caps'
                     /\ k s' caps' = Some z).
  { intros d -> Hm. apply Hr in Hm as (s1 & caps1 & Hc & Hd).
    destruct (_ && _); [discriminate|].
    apply IH in Hd as (s2 & caps2 & Hc2 & Hk).
    exists s2, caps2. split; [|exact Hk]. by eapply consumed_Quant_step. }
  destruct max as [[|max]|].
  - exists s, caps. split; [constructor|exact H].
  - destruct min.
    + destruct (matcher ic r s _ _) eqn:Hm.
      * simplify_eq. by eapply Hstep.
      * exists s, caps. split; [constructor|exact H].
    + by eapply Hstep.
  - destruct min.
    + destruct (matcher ic r s _ _) eqn:Hm.
      * simplify_eq. by eapply Hstep.
      * exists s, caps. split; [constructor|exact H].
    + by eapply Hstep.
Qed.

(** Every successful run of the matcher consumes a prefix the pattern
    allows and succeeds in its continuation. *)
Lemma matcher_consumed ic r : forall s caps k z,
  matcher ic r s caps k = Some z ->
  exists s' caps', consumed ic r s caps s' caps' /\ k s' caps' = Some z.
Proof.
  induction r as [|c|cs|r1 IH1 r2 IH2|r1 IH1 r2 IH2|min max r1 IH1|n r1 IH1];
    intros s caps k z H.
  - exists s, caps. split; [constructor|exact H].
  - destruct s as [|x s]; [discriminate|]. simpl in H.
    destruct (N.eqb_spec (canonicalize ic x) (canonicalize ic c)); [|discriminate].
    exists s, caps. split; [by constructor|exact H].
  - destruct s as [|x s]; [discriminate|]. simpl in H.
    destruct (existsb _ cs) eqn:E; [|discriminate].
    exists s, caps. split; [by constructor|exact H].
  - simpl in H. apply IH1 in H as (s1 & caps1 & H1 & H).
    apply IH2 in H as (s2 & caps2 & H2 & H).
    exists s2, caps2. split; [by econstructor|exact H].
  - simpl in H. destruct (matcher ic r1 s caps k) eqn:E.
    + simplify_eq. apply IH1 in E as (s' & caps' & H1 & H).
      exists s', caps'. split; [by apply consumed_Alt_l|exact H].
    + apply IH2 in H as (s' & caps' & H2 & H).
      exists s', caps'. split; [by apply consumed_Alt_r|exact H].
  - by apply (repeatMatcher_consumed ic r1 _ IH1) in H.
  - simpl in H. apply IH1 in H as (s' & caps' & H1 & H).
    eexists s', _. split; [by constructor|exact H].
Qed.

Lemma consumed_suffix ic r s caps s' caps' :
  consumed ic r s caps s' caps' -> exists w, s = w ++ s'.
Proof.
  induction 1 as [s caps|c x s caps _|cs x s caps _
                 |r1 r2 s caps s1 caps1 s2 caps2 _ [w1 ->] _ [w2 ->]
                 |r1 r2 s caps s' caps' _ IH|r1 r2 s caps s' caps' _ IH
                 |max r s caps|min r s caps
                 |min max r s caps s1 caps1 s2 caps2 _ [w1 ->] _ [w2 ->]
                 |n r s caps s' caps' _ IH];
    try (by exists []); try (by exists [x]); try exact IH;
    exists (w1 ++ w2); by rewrite app_assoc.
Qed.

Lemma exec_Some re s z :
  exec re s = Some z -> exists p s0, s = p ++ s0 /\ matchAt re s0 = Some z.
Proof.
  induction s as [|c s IH]; simpl.
  - destruct (matchAt re []) eqn:E; [|discriminate]. intros ?; simplify_eq.
    by exists [], [].
  - destruct (matchAt re (c :: s)) eqn:E.
    + intros ?; simplify_eq. by exists [], (c :: s).
    + intros (p & s0 & -> & H)%IH. by exists (c :: p), s0.
Qed.

(** A match starts somewhere in the line and consumes what the pattern
    allows; index 0 of the result is the matched text. *)
Lemma strMatch_consumed s re m :
  strMatch s re = Some m ->
  exists p s0 s' caps',
    s = p ++ s0
    /\ consumed (ignoreCase re) (pattern re) s0
         (replicate (S (nCaptures (pattern re))) None) s' caps'
    /\ m = <[0%nat := Some (take (length s0 - length s') s0)]> caps'.
Proof.
  intros (p & s0 & -> & H)%exec_Some. unfold matchAt in H.
  apply matcher_consumed in H as (s' & caps' & Hc & H). simplify_eq.
  by exists p, s0, s', caps'.
Qed.

Lemma consumed_no_groups ic r s caps s' caps' :
  consumed ic r s caps s' caps' -> groupsOf r = [] -> caps' = caps.
Proof.
  induction 1 as [| | |r1 r2 s caps s1 caps1 s2 caps2 _ IH1 _ IH2
                 |r1 r2 s caps s' caps' _ IH|r1 r2 s caps s' caps' _ IH
                 | |
                 |min max r s caps s1 caps1 s2 caps2 _ IH1 _ IH2
                 |n r s caps s' caps' _ IH]; simpl; intros Hg; try done.
  - apply app_eq_nil in Hg as [H1 H2]. by rewrite IH2, IH1.
  - apply app_eq_nil in Hg as [H1 H2]. auto.
  - apply app_eq_nil in Hg as [H1 H2]. auto.
  - rewrite (IH2 Hg), (IH1 Hg), Hg. reflexivity.
Qed.

Lemma consumed_class_run ic cs q s caps s' caps' :
  consumed ic q s caps s' caps' ->
  forall min max, q = Quant min max (Class cs) ->
  caps' = caps
  /\ exists w, s = w ++ s' /\ Forall (fun c => inClass ic cs c = true) w
               /\ (max = None -> (min <= length w)%nat).
Proof.
  induction 1 as [| | | | | |max r s caps|min r s caps
                 |min max r s caps s1 caps1 s2 caps2 H1 _ H2 IH2|];
    intros min' max' Hq; try discriminate; simplify_eq.
  - split; [done|]. exists []. by repeat split.
  - split; [done|]. exists []. by repeat split.
  - destruct (IH2 _ _ eq_refl) as (-> & w & -> & Hw & Hmin).
    inversion H1; subst. split; [done|].
    exists (x :: w). repeat split; [by constructor|].
    intros ->. specialize (Hmin eq_refl). simpl. lia.
Qed.

Lemma consumed_Seq_skip ic r1 r2 s caps s' caps' :
  groupsOf r1 = [] -> consumed ic (Seq r1 r2) s caps s' caps' ->
  exists w s1, s = w ++ s1 /\ consumed ic r1 s caps s1 caps
               /\ consumed ic r2 s1 caps s' caps'.
Proof.
  intros Hg H. inversion H as [| | |? ? ? ? s1 caps1 ? ? H1 H2| | | | | |]; subst.
  pose proof (consumed_no_groups _ _ _ _ _ _ H1 Hg) as ->.
  destruct (consumed_suffix _ _ _ _ _ _ H1) as [w ->]. by exists w, s1.
Qed.

Lemma consumed_Seq_group ic n min cs r2 s caps s' caps' :
  consumed ic (Seq (Group n (Quant min None (Class cs))) r2) s caps s' caps' ->
  exists w s1, s = w ++ s1 /\ Forall (fun c => inClass ic cs c = true) w
               /\ (min <= length w)%nat
               /\ consumed ic r2 s1 (<[n := Some w]> caps) s' caps'.
Proof.
  intros H. inversion H as [| | |? ? ? ? s1 caps1 ? ? H1 H2| | | | | |]; subst.
  inversion H1 as [| | | | | | | | |? ? ? ? ? caps0 H0]; subst.
  destruct (consumed_class_run _ _ _ _ _ _ _ H0 _ _ eq_refl)
    as (-> & w & -> & Hw & Hmin).
  exists w, s1. repeat split; [done|by apply Hmin|].
  by rewrite take_app_minus in H2.
Qed.

Lemma canonicalize_cases ic c :
  canonicalize ic c = c
  \/ ((97 <= c)%N /\ (c <= 122)%N /\ canonicalize ic c = (c - 32)%N).
Proof.
  unfold canonicalize. destruct ic; [|by left]. simpl.
  destruct (N.leb_spec 97 c), (N.leb_spec c 122); simpl; auto.
Qed.

Lemma inClass_digit ic c : inClass ic [ADigit] c = true -> isDigit c = true.
Proof.
  unfold inClass, atomMatches. simpl. rewrite orb_false_r. unfold isDigit.
  destruct (canonicalize_cases ic c) as [-> | (? & ? & ->)]; [done|].
  rewrite andb_true_iff, !N.leb_le. lia.
Qed.

Lemma inClass_dist ic c :
  inClass ic [ADigit; AChar (ch ".")] c = true -> distChar c = true.
Proof.
  unfold inClass, atomMatches, distChar. cbn [existsb].
  change (ch ".") with 46%N. rewrite orb_false_r.
  assert (canonicalize ic 46 = 46%N) as -> by by destruct ic.
  unfold isDigit. rewrite !orb_true_iff, !andb_true_iff, !N.leb_le, !N.eqb_eq.
  destruct (canonicalize_cases ic c) as [-> | (? & ? & ->)]; [intuition|lia].
Qed.

(** The captures of a sensor match: the id is a non-empty string of digits,
    the distance a non-empty string of digits and dots. *)
Lemma strict_sensor_captures s m :
  strMatch s Strict.sensorRe = Some m ->
  item m 1 <> [] /\ Forall (fun c => isDigit c = true) (item m 1)
  /\ item m 2 <> [] /\ Forall (fun c => distChar c = true) (item m 2).
Proof.
  intros (p & s0 & s' & caps' & -> & Hc & ->)%strMatch_consumed.
  simpl in Hc.
  apply consumed_Seq_skip in Hc as (? & ? & -> & _ & Hc); [|done].
  apply consumed_Seq_group in Hc as (n & ? & -> & Hn & Hn1 & Hc).
  apply consumed_Seq_skip in Hc as (? & ? & -> & _ & Hc); [|done].
  apply consumed_Seq_group in Hc as (f & ? & -> & Hf & Hf1 & Hc).
  apply consumed_no_groups in Hc as ->; [|done].
  unfold item. simpl. repeat split.
  - destruct n; [simpl in Hn1; lia|done].
  - eapply Forall_impl; [exact Hn|]. apply inClass_digit.
  - destruct f; [simpl in Hf1; lia|done].
  - eapply Forall_impl; [exact Hf|]. apply inClass_dist.
Qed.

Lemma fuzzy_sensor_captures s m :
  strMatch s Fuzzy.sensorRe = Some m ->
  item m 1 <> [] /\ Forall (fun c => isDigit c = true) (item m 1)
  /\ item m 2 <> [] /\ Forall (fun c => distChar c = true) (item m 2).
Proof.
  intros (p & s0 & s' & caps' & -> & Hc & ->)%strMatch_consumed.
  simpl in Hc.
  apply consumed_Seq_skip in Hc as (? & ? & -> & _ & Hc); [|done].
  apply consumed_Seq_skip in Hc as (? & ? & -> & _ & Hc); [|done].
  apply consumed_Seq_group in Hc as (n & ? & -> & Hn & Hn1 & Hc).
  apply consumed_Seq_skip in Hc as (? & ? & -> & _ & Hc); [|done].
  apply consumed_Seq_group in Hc as (f & ? & -> & Hf & Hf1 & Hc).
  apply consumed_no_groups in Hc as ->; [|done].
  unfold item. simpl. repeat split.
  - destruct n; [simpl in Hn1; lia|done].
  - eapply Forall_impl; [exact Hn|]. apply inClass_digit.
  - destruct f; [simpl in Hf1; lia|done].
  - eapply Forall_impl; [exact Hf|]. apply inClass_dist.
Qed.

(** ** Numbers parsed from the captures *)

Lemma binary_round_aux_sign s m e l :
  signIs s (binary_round_aux prec emax s m e l).
Proof.
  unfold binary_round_aux.
  destruct (shr_fexp prec emax m e l) as [mrs' e'].
  destruct (shr_fexp prec emax _ e' loc_Exact) as [mrs'' e''].
  destruct (shr_m mrs''); simpl; try done. by destruct (_ <=? _).
Qed.

Lemma ofQuot_sign neg a b : signIs neg (ofQuot neg a b).
Proof.
  unfold ofQuot, SFdiv.
  destruct (SFdiv_core_binary prec emax (Z.pos a) 0 (Z.pos b) 0) as [[mz ez] lz].
  rewrite xorb_false_r. apply binary_round_aux_sign.
Qed.

Lemma parseFloat_sign s : signIs (signOf (trimStart s)).1 (parseFloat s).
Proof.
  unfold parseFloat. destruct (signOf (trimStart s)) as [neg s0]. cbn [fst].
  destruct (isPrefix (js "Infinity") s0); [exact eq_refl|].
  destruct (span isDigit s0) as [ip s1].
  destruct (match s1 with
            | 46%N :: s1' => span isDigit s1'
            | _ => ([], s1)
            end) as [fp s2].
  assert (H : signIs neg
    match digitsVal 10 (ip ++ fp) with
    | 0%N => S754_zero neg
    | N.pos m =>
        match exponentPart s2 - Z.of_nat (length fp) with
        | Z.neg k => ofQuot neg m (10 ^ k)
        | _ => ofQuot neg (m * Z.to_pos (10 ^ (exponentPart s2 - Z.of_nat (length fp)))) 1
        end
    end).
  { destruct (digitsVal 10 (ip ++ fp)); [done|].
    destruct (exponentPart s2 - Z.of_nat (length fp)); apply ofQuot_sign. }
  destruct ip, fp; try done.
Qed.

Lemma signIs_not_below_zero x : signIs false x -> lt x (lit "0") = false.
Proof. rewrite lit_0. by destruct x as [s|s| |s m e]; simpl; intros; subst. Qed.

Lemma distChar_cases c :
  distChar c = true -> In c [46; 48; 49; 50; 51; 52; 53; 54; 55; 56; 57]%N.
Proof.
  unfold distChar, isDigit.
  rewrite !orb_true_iff, andb_true_iff, N.leb_le, N.leb_le, !N.eqb_eq.
  intros H. simpl. lia.
Qed.

Lemma digit_distChar c : isDigit c = true -> distChar c = true.
Proof. unfold distChar. by intros ->. Qed.

(** Case analysis on a character of a distance or of an id. *)
Ltac each_distChar H :=
  apply distChar_cases in H; simpl in H;
  repeat (destruct H as [H|H]; [subst|]); [..|contradiction].

(** A distance capture never parses to a Number below zero. *)
Lemma parseFloat_unsigned f :
  f <> [] -> Forall (fun c => distChar c = true) f ->
  lt (parseFloat f) (lit "0") = false.
Proof.
  intros Hne Hf. apply signIs_not_below_zero.
  destruct f as [|c f]; [done|]. inversion Hf as [|? ? Hc _]; subst.
  assert (H : (signOf (trimStart (c :: f))).1 = false)
    by (each_distChar Hc; reflexivity).
  rewrite <- H. apply parseFloat_sign.
Qed.

Lemma span_all p s : Forall (fun c => p c = true) s -> span p s = (s, []).
Proof.
  induction 1 as [|c s Hc _ IH]; [done|]. simpl. by rewrite Hc, IH.
Qed.

Lemma ofZ_pos_ge_zero p : ge (ofZ (Z.pos p)) (lit "0") = true.
Proof.
  rewrite lit_0. by destruct (ofZ_shape p) as [-> | (m & e & -> & _)].
Qed.

(** An id capture parses to a Number that is at least zero, hence not to
    NaN. *)
Lemma parseInt_digits n :
  n <> [] -> Forall (fun c => isDigit c = true) n ->
  ge (parseInt n) (lit "0") = true.
Proof.
  intros Hne Hn. destruct n as [|c n]; [done|].
  inversion Hn as [|? ? Hc Hn']; subst.
  assert (H1 : signOf (trimStart (c :: n)) = (false, c :: n))
    by (apply digit_distChar in Hc; each_distChar Hc; reflexivity).
  assert (H2 : match c :: n with
               | 48%N :: x :: s' =>
                   if ((x =? 120) || (x =? 88))%N then (16%N, s')
                   else (10%N, c :: n)
               | _ => (10%N, c :: n)
               end = (10%N, c :: n)).
  { destruct n as [|x s'].
    - apply digit_distChar in Hc. each_distChar Hc; reflexivity.
    - inversion Hn' as [|? ? Hx _]; subst.
      assert (((x =? 120) || (x =? 88))%N = false) as Hx'.
      { unfold isDigit in Hx. apply andb_true_iff in Hx as [_ Hx%N.leb_le].
        apply orb_false_iff. split; apply N.eqb_neq; lia. }
      apply digit_distChar in Hc. each_distChar Hc; rewrite ?Hx'; reflexivity. }
  unfold parseInt. rewrite H1, H2.
  rewrite (span_all (isRadixDigit 10) (c :: n)) by exact Hn.
  destruct (digitsVal 10 (c :: n)); [reflexivity|apply ofZ_pos_ge_zero].
Qed.

(** ** Retained readings *)

Lemma sensorUpdater_readingsOk id d b now st :
  ge id (lit "0") = true -> lt d (lit "0") = false ->
  readingsOk st -> readingsOk (sensorUpdater id d b now st).
Proof.
  intros Hid Hd H k r. simpl. rewrite lookup_insert. case_decide.
  - intros ?; simplify_eq. by repeat split.
  - apply H.
Qed.

Lemma initialState_readingsOk : readingsOk initialState.
Proof.
  intros k r. unfold initialState. cbn [sensors].
  rewrite !lookup_insert. repeat case_decide; subst;
    intros ?; simplify_eq; repeat split; vm_compute; reflexivity.
Qed.

Lemma processLine_readingsOk line now st :
  readingsOk st -> readingsOk (Fuzzy.processLine line now st).
Proof.
  intros H. rewrite processLine_steps. unfold readingsOk.
  destruct (gpsStep_frame (trim line) now (Fuzzy.sensorStep (trim line) now st))
    as (_ & _ & _ & -> & _).
  unfold Fuzzy.sensorStep.
  destruct (strMatch (trim line) Fuzzy.sensorRe) as [m|] eqn:E; [|done].
  destruct (_ && _); [|done].
  destruct (fuzzy_sensor_captures _ _ E) as (? & ? & ? & ?).
  apply sensorUpdater_readingsOk;
    [by apply parseInt_digits|by apply parseFloat_unsigned|done].
Qed.

Lemma parseLine_readingsOk line now st :
  readingsOk st -> readingsOk (Strict.parseLine line now st).
Proof.
  intros H. unfold Strict.parseLine.
  assert (H' : readingsOk
    match strMatch line Strict.sensorRe with
    | Some m => sensorUpdater (parseInt (item m 1)) (parseFloat (item m 2))
                  (isDanger (parseFloat (item m 2))) now st
    | None => st
    end).
  { destruct (strMatch line Strict.sensorRe) as [m|] eqn:E; [|done].
    destruct (strict_sensor_captures _ _ E) as (? & ? & ? & ?).
    apply sensorUpdater_readingsOk;
      [by apply parseInt_digits|by apply parseFloat_unsigned|done]. }
  by destruct (strMatch line Strict.gpsRe).
Qed.

(** X10. Whenever the sensor pattern of either component matches a line,
    the id it extracts is a Number that is at least 0 (so never NaN) and the
    distance it extracts is not below 0. Hence in every state either
    component reaches, every retained reading is stored under the key of
    its own id, has an id that is at least 0 and a distance that is not
    negative. *)
Theorem readings_are_never_negative :
  (forall s m,
      strMatch s Fuzzy.sensorRe = Some m \/ strMatch s Strict.sensorRe = Some m ->
      ge (parseInt (item m 1)) (lit "0") = true
      /\ lt (parseFloat (item m 2)) (lit "0") = false)
  /\ (forall evs, readingsOk (FuzzySession.run evs))
  /\ (forall evs, readingsOk (Strict.bikeState (StrictSession.run evs))).
Proof.
  split; [|split].
  - intros s m [H|H];
      [apply fuzzy_sensor_captures in H|apply strict_sensor_captures in H];
      destruct H as (? & ? & ? & ?);
      (split; [by apply parseInt_digits|by apply parseFloat_unsigned]).
  - intros evs. induction evs as [|ev evs IH] using rev_ind;
      [apply initialState_readingsOk|].
    rewrite fuzzy_run_snoc. destruct ev as [line now|b]; simpl; [|exact IH].
    by apply processLine_readingsOk.
  - intros evs. induction evs as [|ev evs IH] using rev_ind;
      [apply initialState_readingsOk|].
    rewrite strict_run_snoc. destruct ev as [value now|b|msg]; simpl;
      try exact IH.
    destruct value as [text|]; [|exact IH].
    rewrite handleData_bikeState. by apply parseLine_readingsOk.
Qed.

Lemma readings_are_never_negative_witness :
  ge (parseInt (js "07")) (lit "0") = true
  /\ lt (parseFloat (js "12.")) (lit "0") = false.
Proof.
  apply (proj1 readings_are_never_negative (js "x S07 : 12. cm")
           [Some (js "S07 : 12."); Some (js "07"); Some (js "12.")]).
  left. vm_compute. reflexivity.
Defined.

(** ** Letters a line needs *)

Lemma consumed_chars_head ic c p s caps s' caps' :
  consumed ic (chars (c :: p)) s caps s' caps' ->
  exists x t, s = x :: t /\ canonicalize ic x = canonicalize ic c.
Proof.
  simpl. intros H.
  inversion H as [| | |? ? ? ? s1 caps1 ? ? H1 H2| | | | | |]; subst.
  inversion H1; subst. eauto.
Qed.

Lemma elem_of_trim x s : x ∈ trim s -> x ∈ s.
Proof.
  intros H. destruct (trimStart_split s) as (w & Hs & _).
  destruct (trimEnd_split (trimStart s)) as (w' & Hs' & _).
  rewrite Hs, Hs', !elem_of_app. tauto.
Qed.

Lemma canonicalize_letter x c :
  (65 <= c)%N -> (c <= 90)%N ->
  canonicalize true x = canonicalize true c -> x = c \/ x = (c + 32)%N.
Proof.
  intros H1 H2.
  assert (canonicalize true c = c) as ->.
  { unfold canonicalize. destruct (N.leb_spec 97 c); [lia|done]. }
  destruct (canonicalize_cases true x) as [-> | (? & ? & ->)]; [tauto|lia].
Qed.

(** The fuzzy sensor pattern starts at an I or an S, of either case. *)
Lemma fuzzy_sensor_needs_label s m :
  strMatch s Fuzzy.sensorRe = Some m ->
  exists x, x ∈ s /\ (x = 73 \/ x = 105 \/ x = 83 \/ x = 115)%N.
Proof.
  intros (p & s0 & s' & caps' & -> & Hc & _)%strMatch_consumed.
  simpl in Hc.
  apply consumed_Seq_skip in Hc as (w & s1 & -> & HL & _); [|done].
  assert (exists x t, w ++ s1 = x :: t
            /\ (canonicalize true x = canonicalize true 73
                \/ canonicalize true x = canonicalize true 83))
    as (x & t & Hs & Hx).
  { inversion HL as [| | | |? ? ? ? ? ? H1|? ? ? ? ? ? H1| | | |]; subst.
    - apply consumed_chars_head in H1 as (x & t & ? & ?). eauto.
    - inversion H1 as [| | | |? ? ? ? ? ? H2|? ? ? ? ? ? H2| | | |]; subst;
        apply consumed_chars_head in H2 as (x & t & ? & ?); eauto. }
  exists x. split.
  - rewrite elem_of_app. right. rewrite Hs. apply elem_of_cons. by left.
  - destruct Hx as [Hx|Hx]; apply canonicalize_letter in Hx; lia.
Qed.

(** The longitude pattern starts at an L of either case. *)
Lemma fuzzy_lng_needs_label s m :
  strMatch s Fuzzy.lngRe = Some m -> exists x, x ∈ s /\ (x = 76 \/ x = 108)%N.
Proof.
  intros (p & s0 & s' & caps' & -> & Hc & _)%strMatch_consumed.
  simpl in Hc.
  apply consumed_Seq_skip in Hc as (w & s1 & -> & HL & _); [|done].
  assert (exists x t, w ++ s1 = x :: t
            /\ canonicalize true x = canonicalize true 76)
    as (x & t & Hs & Hx).
  { inversion HL as [| | | |? ? ? ? ? ? H1|? ? ? ? ? ? H1| | | |]; subst.
    - apply consumed_chars_head in H1 as (x & t & ? & ?). eauto.
    - inversion H1 as [| | | |? ? ? ? ? ? H2|? ? ? ? ? ? H2| | | |]; subst;
        apply consumed_chars_head in H2 as (x & t & ? & ?); eauto. }
  exists x. split.
  - rewrite elem_of_app. right. rewrite Hs. apply elem_of_cons. by left.
  - apply canonicalize_letter in Hx; lia.
Qed.

(** The comma-separated pair needs its comma. *)
Lemma fuzzy_comma_needs_comma s m :
  strMatch s Fuzzy.commaGpsRe = Some m -> 44%N ∈ s.
Proof.
  intros (p & s0 & s' & caps' & -> & Hc & _)%strMatch_consumed.
  simpl in Hc.
  inversion Hc as [| | |? ? ? ? s1 caps1 ? ? H1 H2| | | | | |]; subst.
  destruct (consumed_suffix _ _ _ _ _ _ H1) as [w ->].
  inversion H2 as [| | |? ? ? ? s2 caps2 ? ? H3 _| | | | | |]; subst.
  inversion H3 as [|? ? ? ? Hx| | | | | | | |]; subst.
  simpl in Hx. subst. rewrite !elem_of_app. right; right.
  apply elem_of_cons. by left.
Qed.

Lemma strict_sensor_needs_I s m :
  strMatch s Strict.sensorRe = Some m -> 73%N ∈ s.
Proof.
  intros (p & s0 & s' & caps' & -> & Hc & _)%strMatch_consumed.
  simpl in Hc.
  apply consumed_Seq_skip in Hc as (w & s1 & -> & HL & _); [|done].
  apply (consumed_chars_head false 73 (js "D ")) in HL as (x & t & -> & Hx).
  simpl in Hx. subst. rewrite elem_of_app. right. apply elem_of_cons. by left.
Qed.

Lemma strict_gps_needs_L s m :
  strMatch s Strict.gpsRe = Some m -> 76%N ∈ s.
Proof.
  intros (p & s0 & s' & caps' & -> & Hc & _)%strMatch_consumed.
  simpl in Hc.
  apply consumed_Seq_skip in Hc as (w & s1 & -> & HL & _); [|done].
  apply (consumed_chars_head false 76 (js "at: ")) in HL as (x & t & -> & Hx).
  simpl in Hx. subst. rewrite elem_of_app. right. apply elem_of_cons. by left.
Qed.

Lemma fuzzy_no_sensor_letters s :
  (forall x, x ∈ s -> x <> 73 /\ x <> 105 /\ x <> 83 /\ x <> 115)%N ->
  strMatch s Fuzzy.sensorRe = None.
Proof.
  intros H. destruct (strMatch s Fuzzy.sensorRe) as [m|] eqn:E; [|done].
  apply fuzzy_sensor_needs_label in E as (x & Hx & Hc).
  specialize (H x Hx). lia.
Qed.

Lemma fuzzy_no_gps_letters s :
  (forall x, x ∈ s -> x <> 76 /\ x <> 108 /\ x <> 44)%N ->
  Fuzzy.gpsFields s = (lit "0", lit "0", false).
Proof.
  intros H. unfold Fuzzy.gpsFields.
  destruct (strMatch s Fuzzy.lngRe) as [m|] eqn:E.
  { apply fuzzy_lng_needs_label in E as (x & Hx & Hc).
    specialize (H x Hx). lia. }
  destruct (strMatch s Fuzzy.commaGpsRe) as [m|] eqn:E'.
  { apply fuzzy_comma_needs_comma in E'. specialize (H _ E'). lia. }
  by destruct (strMatch s Fuzzy.latRe).
Qed.

Lemma strict_no_I s : 73%N ∉ s -> strMatch s Strict.sensorRe = None.
Proof.
  intros H. destruct (strMatch s Strict.sensorRe) eqn:E; [|done].
  by apply strict_sensor_needs_I in E.
Qed.

Lemma strict_no_L s : 76%N ∉ s -> strMatch s Strict.gpsRe = None.
Proof.
  intros H. destruct (strMatch s Strict.gpsRe) eqn:E; [|done].
  by apply strict_gps_needs_L in E.
Qed.

(** X11. What a line cannot do without certain characters. In the fuzzy
    component a line without the letters I and S (of either case) changes
    no sensor and no flag, and a line without the letter L (of either case)
    and without comma leaves the fix alone. In the strict component a line
    without capital I leaves its sensors and flags, and a line without
    capital L its fix. *)
Theorem updates_need_their_letters :
  (forall line now st,
      (forall x, x ∈ line -> x <> 73 /\ x <> 105 /\ x <> 83 /\ x <> 115)%N ->
      sensors (Fuzzy.processLine line now st) = sensors st
      /\ leftDanger (Fuzzy.processLine line now st) = leftDanger st
      /\ rightDanger (Fuzzy.processLine line now st) = rightDanger st
      /\ backDanger (Fuzzy.processLine line now st) = backDanger st)
  /\ (forall line now st,
      (forall x, x ∈ line -> x <> 76 /\ x <> 108 /\ x <> 44)%N ->
      gps (Fuzzy.processLine line now st) = gps st)
  /\ (forall text now app,
      73%N ∉ text ->
      let st' := Strict.bikeState (Strict.handleData (Some text) now app) in
      sensors st' = sensors (Strict.bikeState app)
      /\ leftDanger st' = leftDanger (Strict.bikeState app)
      /\ rightDanger st' = rightDanger (Strict.bikeState app)
      /\ backDanger st' = backDanger (Strict.bikeState app))
  /\ (forall text now app,
      76%N ∉ text ->
      gps (Strict.bikeState (Strict.handleData (Some text) now app))
      = gps (Strict.bikeState app)).
Proof.
  split; [|split; [|split]].
  - intros line now st H. rewrite processLine_steps.
    destruct (gpsStep_frame (trim line) now
                (Fuzzy.sensorStep (trim line) now st))
      as (-> & -> & -> & -> & _).
    unfold Fuzzy.sensorStep. rewrite fuzzy_no_sensor_letters; [done|].
    intros x Hx%elem_of_trim. by apply H.
  - intros line now st H. rewrite processLine_steps. unfold Fuzzy.gpsStep.
    rewrite fuzzy_no_gps_letters.
    + apply sensorStep_frame.
    + intros x Hx%elem_of_trim. by apply H.
  - intros text now app H st'. subst st'. rewrite handleData_bikeState.
    unfold Strict.parseLine. rewrite strict_no_I.
    + by destruct (strMatch (trim text) Strict.gpsRe).
    + by intros Hx%elem_of_trim.
  - intros text now app H. rewrite handleData_bikeState.
    apply strict_gps_unmatched, strict_no_L. by intros Hx%elem_of_trim.
Qed.

Lemma updates_need_their_letters_witness :
  gps (Fuzzy.processLine (js "34.05 -118.24") sampleTime initialState)
  = gps initialState.
Proof.
  apply (proj1 (proj2 updates_need_their_letters)).
  intros x Hx. vm_compute in Hx.
  repeat (apply elem_of_cons in Hx as [->|Hx]; [lia|]).
  by apply elem_of_nil in Hx.
Defined.

(** ** Line formats that are always understood *)

Lemma step_chars ic p r s caps k z :
  matcher ic r s caps k = Some z ->
  matcher ic (Seq (chars p) r) (p ++ s) caps k = Some z.
Proof. intros H. simpl. by apply chars_consumes. Qed.

Lemma step_quant ic min cs r w rest caps k z :
  Forall (fun c => inClass ic cs c = true) w -> (min <= length w)%nat ->
  stopsAt ic cs rest ->
  matcher ic r rest caps k = Some z ->
  matcher ic (Seq (Quant min None (Class cs)) r) (w ++ rest) caps k = Some z.
Proof.
  intros Hw Hmin Hstop H.
  change (matcher ic (Quant min None (Class cs)) (w ++ rest) caps
            (fun s' c' => matcher ic r s' c' k) = Some z).
  by apply Quant_class_greedy.
Qed.

Lemma step_group ic n min cs r w rest caps k z :
  Forall (fun c => inClass ic cs c = true) w -> (min <= length w)%nat ->
  stopsAt ic cs rest ->
  matcher ic r rest (<[n := Some w]> caps) k = Some z ->
  matcher ic (Seq (Group n (Quant min None (Class cs))) r) (w ++ rest) caps k
  = Some z.
Proof.
  intros Hw Hmin Hstop H.
  change (matcher ic (Quant min None (Class cs)) (w ++ rest) caps
            (fun s' c' => matcher ic r s'
               (<[n := Some (take (length (w ++ rest) - length s') (w ++ rest))]> c') k)
          = Some z).
  apply Quant_class_greedy; try done. by rewrite take_app_minus.
Qed.

Lemma digit_cases c :
  isDigit c = true -> In c [48; 49; 50; 51; 52; 53; 54; 55; 56; 57]%N.
Proof.
  unfold isDigit. rewrite andb_true_iff, N.leb_le, N.leb_le.
  intros H. simpl. lia.
Qed.

Ltac each_digit H :=
  apply digit_cases in H; simpl in H;
  repeat (destruct H as [H|H]; [subst|]); [..|contradiction].

Lemma digit_inClass ic c : isDigit c = true -> inClass ic [ADigit] c = true.
Proof. intros H. destruct ic; each_digit H; reflexivity. Qed.

Lemma dist_inClass ic c :
  distChar c = true -> inClass ic [ADigit; AChar (ch ".")] c = true.
Proof. intros H. destruct ic; each_distChar H; reflexivity. Qed.

Lemma dist_numChar c : distChar c = true -> numChar c = true.
Proof. intros H. each_distChar H; reflexivity. Qed.

Lemma digit_stops_space ic c s :
  isDigit c = true -> stopsAt ic [ASpace] (c :: s).
Proof.
  intros H%digit_distChar. destruct ic; each_distChar H; reflexivity.
Qed.

Lemma dist_stops_sep c s : distChar c = true -> stopsAt true sepClass (c :: s).
Proof. intros H. each_distChar H; reflexivity. Qed.

Lemma take_all_nil {A} (l : list A) : take (length l - length (@nil A)) l = l.
Proof. simpl. rewrite Nat.sub_0_r. by apply take_ge. Qed.

Lemma take_prefix {A} (p rest : list A) :
  take (length (p ++ rest) - length rest) (p ++ rest) = p.
Proof. apply take_app_minus. Qed.

Lemma nonempty_length {A} (l : list A) : l <> [] -> (1 <= length l)%nat.
Proof. destruct l; [done|simpl; lia]. Qed.

Section SensorLines.

Variables n f : list N.
Hypothesis n_nonempty : n <> [].
Hypothesis f_nonempty : f <> [].
Hypothesis n_digits : Forall (fun c => isDigit c = true) n.
Hypothesis f_dist : Forall (fun c => distChar c = true) f.

Lemma strict_sensor_line_match :
  strMatch (js "ID " ++ n ++ js ": Distance = " ++ f ++ js " cm") Strict.sensorRe
  = Some [Some (js "ID " ++ n ++ js ": Distance = " ++ f ++ js " cm");
          Some n; Some f].
Proof.
  apply exec_hit. unfold matchAt.
  change (nCaptures (pattern Strict.sensorRe)) with 2%nat.
  apply step_chars. apply step_group;
    [eapply Forall_impl; [exact n_digits|apply digit_inClass]
    |by apply nonempty_length|reflexivity|].
  apply step_chars. apply step_group;
    [eapply Forall_impl; [exact f_dist|apply dist_inClass]
    |by apply nonempty_length|reflexivity|].
  rewrite <- (app_nil_r (js " cm")) at 1. apply step_chars.
  change (matcher ?ic Empty ?s ?c ?k) with (k s c). cbv beta.
  rewrite ?app_nil_r, take_all_nil. reflexivity.
Qed.

(** The sensor pattern of the fuzzy component on a line made of a label,
    blanks, an id, a separator and a distance, possibly followed by more
    text that does not go on with a digit or a dot. *)
Lemma fuzzy_sensor_line_match lbl w sep rest :
  (forall caps k z, k (w ++ n ++ sep ++ f ++ rest) caps = Some z ->
     matcher true (Alt (Str "ID") (Alt (Str "Sensor") (Str "S")))
       (lbl ++ w ++ n ++ sep ++ f ++ rest) caps k = Some z) ->
  Forall (fun c => inClass true [ASpace] c = true) w ->
  sep <> [] -> Forall (fun c => inClass true sepClass c = true) sep ->
  stopsAt true [ADigit] sep ->
  stopsAt true [ADigit; AChar (ch ".")] rest ->
  strMatch (lbl ++ w ++ n ++ sep ++ f ++ rest) Fuzzy.sensorRe
  = Some [Some (lbl ++ w ++ n ++ sep ++ f); Some n; Some f].
Proof.
  intros Hlbl Hw Hsep Hcls Hstop Hrest. apply exec_hit. unfold matchAt.
  change (nCaptures (pattern Fuzzy.sensorRe)) with 2%nat.
  cbn [pattern ignoreCase Fuzzy.sensorRe Cat foldr].
  change (matcher true (Seq ?L ?r) ?s ?c ?k)
    with (matcher true L s c (fun s' c' => matcher true r s' c' k)).
  apply Hlbl.
  apply (step_quant true 0 [ASpace]);
    [exact Hw|lia
    |destruct n as [|c ?]; [done|]; apply digit_stops_space; by inversion n_digits|].
  apply step_group;
    [eapply Forall_impl; [exact n_digits|apply digit_inClass]
    |by apply nonempty_length| |].
  { destruct sep; [done|exact Hstop]. }
  apply step_quant; [exact Hcls|by apply nonempty_length| |].
  { destruct f as [|c ?]; [done|]. apply dist_stops_sep. by inversion f_dist. }
  change (matcher true (Seq (Group 2 (Plus ?q)) Empty) ?s ?c ?k)
    with (matcher true (Seq (Group 2 (Quant 1 None q)) Empty) s c k).
  apply step_group;
    [eapply Forall_impl; [exact f_dist|apply dist_inClass]
    |by apply nonempty_length|exact Hrest|].
  change (matcher ?ic Empty ?s ?c ?k) with (k s c). cbv beta.
  replace (lbl ++ w ++ n ++ sep ++ f ++ rest)
    with ((lbl ++ w ++ n ++ sep ++ f) ++ rest) by (by rewrite <- !app_assoc).
  rewrite take_prefix. reflexivity.
Qed.

End SensorLines.

Lemma numChar_range c : numChar c = true -> (45 <= c <= 57)%N.
Proof.
  unfold numChar, isDigit.
  rewrite !orb_true_iff, andb_true_iff, N.leb_le, N.leb_le, !N.eqb_eq. lia.
Qed.

Lemma digit_numChar c : isDigit c = true -> numChar c = true.
Proof. unfold numChar. by intros ->. Qed.

Lemma whiteSpace_not_between c :
  isWhiteSpace c = true -> ~ (33 <= c <= 159)%N.
Proof.
  unfold isWhiteSpace.
  rewrite !orb_true_iff, !andb_true_iff, !N.leb_le, !N.eqb_eq. lia.
Qed.

Lemma whiteSpace_inClass ic c :
  isWhiteSpace c = true -> inClass ic [ASpace] c = true.
Proof.
  intros H. unfold inClass, atomMatches. cbn [existsb]. rewrite orb_false_r.
  destruct (canonicalize_cases ic c) as [-> | (? & ? & _)]; [done|].
  apply whiteSpace_not_between in H. lia.
Qed.

Lemma whiteSpace_stops_num c s :
  isWhiteSpace c = true -> stopsAt false numClass (c :: s).
Proof.
  intros H%whiteSpace_not_between.
  change (isDigit c || ((46 =? c)%N || ((45 =? c)%N || false)) = false).
  destruct (isDigit c) eqn:Hd.
  - apply digit_numChar, numChar_range in Hd. lia.
  - destruct (N.eqb_spec 46 c); [lia|]. destruct (N.eqb_spec 45 c); [lia|done].
Qed.

Lemma numChar_inClass_false c : numChar c = true -> inClass false numClass c = true.
Proof. intros H. each_numChar H; reflexivity. Qed.

Lemma strict_gps_line_match a w b :
  a <> [] -> b <> [] -> w <> [] ->
  Forall (fun c => numChar c = true) a -> Forall (fun c => numChar c = true) b ->
  blank w ->
  strMatch (js "Lat: " ++ a ++ w ++ js "Lng: " ++ b) Strict.gpsRe
  = Some [Some (js "Lat: " ++ a ++ w ++ js "Lng: " ++ b); Some a; Some b].
Proof.
  intros Ha Hb Hw Hna Hnb Hbl. apply exec_hit. unfold matchAt.
  change (nCaptures (pattern Strict.gpsRe)) with 2%nat.
  apply step_chars. apply step_group;
    [eapply Forall_impl; [exact Hna|apply numChar_inClass_false]
    |by apply nonempty_length| |].
  { destruct w as [|c w]; [done|]. apply whiteSpace_stops_num. by inversion Hbl. }
  apply step_quant;
    [eapply Forall_impl; [exact Hbl|apply whiteSpace_inClass]
    |by apply nonempty_length|reflexivity|].
  apply step_chars. rewrite <- (app_nil_r b) at 1.
  change (matcher false (Seq (Group 2 (Plus ?q)) Empty) ?s ?c ?k)
    with (matcher false (Seq (Group 2 (Quant 1 None q)) Empty) s c k).
  apply step_group;
    [eapply Forall_impl; [exact Hnb|apply numChar_inClass_false]
    |by apply nonempty_length|exact I|].
  change (matcher ?ic Empty ?s ?c ?k) with (k s c). cbv beta.
  rewrite take_all_nil. reflexivity.
Qed.

Lemma ends_with_dist (p w : list N) :
  w <> [] -> Forall (fun c => distChar c = true) w -> startsClean (rev (p ++ w)).
Proof.
  intros Hne Hw. apply ends_with_coordinate; [done|].
  eapply Forall_impl; [exact Hw|apply dist_numChar].
Qed.

Lemma Forall_not_elem_of (x : N) l : Forall (fun c => c <> x) l -> x ∉ l.
Proof. rewrite Forall_forall. intros H Hx. by apply (H x). Qed.

(** A concrete piece of text has none of the characters in question. *)
Ltac concrete_chars := vm_compute; repeat constructor; lia.

(** X12. The two line formats of the strict component are always
    understood. For every non-empty string of digits [n] and every non-empty
    string of digits and dots [f], [handleData] on "ID n: Distance = f cm"
    stores the reading [{parseInt(n), parseFloat(f), now}], classifies the
    flag of that sensor, keeps the fix and logs the line. For all non-empty
    coordinate texts [a] and [b] and every non-empty run of white space
    between them, "Lat: a Lng: b" replaces the fix by
    [{parseFloat(a), parseFloat(b), valid, now}], keeps the sensors and logs
    the line. *)
Theorem strict_formats_are_understood :
  (forall n f now app,
      n <> [] -> f <> [] ->
      Forall (fun c => isDigit c = true) n ->
      Forall (fun c => distChar c = true) f ->
      let line := js "ID " ++ n ++ js ": Distance = " ++ f ++ js " cm" in
      Strict.handleData (Some line) now app
      = {| Strict.bikeState :=
             sensorUpdater (parseInt n) (parseFloat f)
               (isDanger (parseFloat f)) now (Strict.bikeState app);
           Strict.logs := Strict.addLog line (Strict.logs app) |})
  /\ (forall a w b now app,
      a <> [] -> b <> [] -> w <> [] ->
      Forall (fun c => numChar c = true) a ->
      Forall (fun c => numChar c = true) b ->
      blank w ->
      let line := js "Lat: " ++ a ++ w ++ js "Lng: " ++ b in
      Strict.handleData (Some line) now app
      = {| Strict.bikeState :=
             gpsUpdater (parseFloat a) (parseFloat b) true now
               (Strict.bikeState app);
           Strict.logs := Strict.addLog line (Strict.logs app) |}).
Proof.
  split.
  - intros n f now app Hn Hf Hdn Hdf line.
    assert (Ht : trim line = line).
    { apply trim_id; [reflexivity|]. unfold line.
      rewrite !app_assoc, rev_app_distr. reflexivity. }
    unfold Strict.handleData. rewrite Ht. unfold Strict.parseLine, line.
    rewrite strict_sensor_line_match by assumption.
    rewrite strict_no_L; [reflexivity|].
    apply Forall_not_elem_of. rewrite !Forall_app. repeat split;
      try concrete_chars.
    + eapply Forall_impl; [exact Hdn|]. intros c Hc%digit_numChar%numChar_range. lia.
    + eapply Forall_impl; [exact Hdf|]. intros c Hc%dist_numChar%numChar_range. lia.
  - intros a w b now app Ha Hb Hw Hna Hnb Hbl line.
    assert (Ht : trim line = line).
    { apply trim_id; [reflexivity|]. unfold line.
      rewrite !app_assoc. by apply ends_with_coordinate. }
    unfold Strict.handleData. rewrite Ht. unfold Strict.parseLine, line.
    rewrite strict_gps_line_match by assumption.
    rewrite strict_no_I; [reflexivity|].
    apply Forall_not_elem_of. rewrite !Forall_app. repeat split;
      try concrete_chars.
    + eapply Forall_impl; [exact Hna|]. intros c Hc%numChar_range. lia.
    + eapply Forall_impl; [exact Hbl|]. intros c Hc%whiteSpace_not_between. lia.
    + eapply Forall_impl; [exact Hnb|]. intros c Hc%numChar_range. lia.
Qed.

Lemma strict_formats_are_understood_witness :
  Strict.bikeState (Strict.handleData (Some (js "ID 3: Distance = 7.5 cm"))
                      sampleTime sampleApp)
  = sensorUpdater (lit "3") (lit "7.5") true sampleTime initialState
  /\ Strict.bikeState
       (Strict.handleData
          (Some (js "Lat: " ++ js "-1.5" ++ [9; 32]%N ++ js "Lng: " ++ js "2"))
          sampleTime sampleApp)
     = gpsUpdater (lit "-1.5") (lit "2") true sampleTime initialState.
Proof.
  split.
  - change (js "ID 3: Distance = 7.5 cm")
      with (js "ID " ++ js "3" ++ js ": Distance = " ++ js "7.5" ++ js " cm").
    rewrite (proj1 strict_formats_are_understood (js "3") (js "7.5")
               sampleTime sampleApp); try discriminate;
      vm_compute; repeat constructor.
  - rewrite (proj2 strict_formats_are_understood (js "-1.5") [9; 32]%N (js "2")
               sampleTime sampleApp); try discriminate;
      vm_compute; repeat constructor.
Defined.

Lemma sep_not_digit c :
  inClass true sepClass c = true -> inClass true [ADigit] c = false.
Proof.
  unfold inClass, sepClass, atomMatches. cbn [existsb].
  destruct (canonicalize_cases true c) as [-> | (Hc1 & Hc2 & ->)].
  - change (canonicalize true (ch ":")) with 58%N.
    change (canonicalize true (ch "=")) with 61%N.
    rewrite !orb_false_r, !orb_true_iff, !N.eqb_eq.
    intros [<- | [H | <-]]; try reflexivity.
    destruct (isDigit c) eqn:Hd; [|done].
    apply whiteSpace_not_between in H.
    apply digit_numChar, numChar_range in Hd. lia.
  - intros _. rewrite orb_false_r. unfold isDigit.
    apply andb_false_iff. rewrite !N.leb_gt. lia.
Qed.

Lemma sep_no_gps_letter c :
  inClass true sepClass c = true -> (c <> 76 /\ c <> 108 /\ c <> 44)%N.
Proof.
  unfold inClass, sepClass, atomMatches. cbn [existsb].
  change (canonicalize true (ch ":")) with 58%N.
  change (canonicalize true (ch "=")) with 61%N.
  destruct (canonicalize_cases true c) as [-> | (Hc1 & Hc2 & ->)].
  - rewrite !orb_false_r, !orb_true_iff, !N.eqb_eq.
    intros [<- | [H%whiteSpace_not_between | <-]]; lia.
  - rewrite !orb_false_r, !orb_true_iff, !N.eqb_eq.
    intros [H | [H%whiteSpace_not_between | H]]; lia.
Qed.

(** The label alternatives of the fuzzy sensor pattern consume each of the
    three labels when blanks and then a digit follow. *)
Lemma fuzzy_label_consumes lbl w n t :
  lbl = js "ID" \/ lbl = js "Sensor" \/ lbl = js "S" ->
  blank w -> n <> [] -> Forall (fun c => isDigit c = true) n ->
  forall caps k z, k (w ++ n ++ t) caps = Some z ->
    matcher true (Alt (Str "ID") (Alt (Str "Sensor") (Str "S")))
      (lbl ++ w ++ n ++ t) caps k = Some z.
Proof.
  intros Hl Hw Hn Hd caps k z Hk.
  destruct Hl as [-> | [-> | ->]].
  - by apply Alt_consumes_l; [apply chars_consumes|].
  - change (matcher true (Alt ?a ?b) (js "Sensor" ++ ?s) ?c ?kk)
      with (matcher true b (js "Sensor" ++ s) c kk).
    by apply Alt_consumes_l; [apply chars_consumes|].
  - assert (exists x s, w ++ n ++ t = x :: s /\ ~ (65 <= x <= 122)%N)
      as (x & s & Hs & Hx').
    { destruct w as [|x w].
      - destruct n as [|x n]; [done|]. exists x, (n ++ t). split; [done|].
        inversion Hd as [|? ? Hx%digit_numChar%numChar_range]. lia.
      - exists x, (w ++ n ++ t). split; [done|].
        inversion Hw as [|? ? Hx%whiteSpace_not_between]. lia. }
    rewrite Hs in *.
    change (matcher true (Alt (Str "ID") (Alt (Str "Sensor") (Str "S")))
              (js "S" ++ x :: s) caps k)
      with (match
              (if (canonicalize true x =? 69)%N
               then matcher true (chars (js "nsor")) s caps k else None)
            with Some r => Some r | None => k (x :: s) caps end).
    destruct (N.eqb_spec (canonicalize true x) 69) as [E|_]; [|exact Hk].
    destruct (canonicalize_cases true x) as [E' | (? & ? & E')];
      rewrite E' in E; lia.
Qed.

(** X13. The line formats of the fuzzy component for a sensor reading are
    always understood. For each label ID, Sensor or S, any blanks, an id
    [n] of digits, a non-empty run of separators [: \s =], a distance [f]
    of digits and dots, and any further text that does not go on with a
    digit or a dot and has no L, l or comma (such as the unit " cm" of the
    simulator's template), [processLine] stores
    [{parseInt(n), parseFloat(f), now}] when the id is 1, 2 or 3, and
    leaves the state as it was otherwise. The fix is never touched. *)
Theorem fuzzy_sensor_formats_are_understood lbl w n sep f rest now prev :
  lbl = js "ID" \/ lbl = js "Sensor" \/ lbl = js "S" ->
  blank w ->
  n <> [] -> Forall (fun c => isDigit c = true) n ->
  sep <> [] -> Forall (fun c => inClass true sepClass c = true) sep ->
  f <> [] -> Forall (fun c => distChar c = true) f ->
  stopsAt true [ADigit; AChar (ch ".")] rest ->
  Forall (fun c => c <> 76 /\ c <> 108 /\ c <> 44)%N rest ->
  startsClean (rev rest) ->
  Fuzzy.processLine (lbl ++ w ++ n ++ sep ++ f ++ rest) now prev
  = if ge (parseInt n) (lit "1") && le (parseInt n) (lit "3")
    then sensorUpdater (parseInt n) (parseFloat f) (isDanger (parseFloat f))
           now prev
    else prev.
Proof.
  intros Hl Hw Hn Hdn Hsep Hcls Hf Hdf Hrest Hnl Hend.
  set (line := lbl ++ w ++ n ++ sep ++ f ++ rest).
  assert (Ht : trim line = line).
  { apply trim_id.
    - destruct Hl as [-> | [-> | ->]]; reflexivity.
    - unfold line. destruct (decide (rest = [])) as [-> | Hr].
      + rewrite app_nil_r, !app_assoc. by apply ends_with_dist.
      + rewrite !app_assoc, rev_app_distr.
        destruct (rev rest) as [|c r] eqn:E; [|exact Hend].
        apply (f_equal (@rev N)) in E. rewrite rev_involutive in E. done. }
  assert (Hne : line <> []).
  { unfold line. destruct Hl as [-> | [-> | ->]]; discriminate. }
  unfold Fuzzy.processLine. rewrite Ht. cbv zeta.
  transitivity (Fuzzy.gpsStep line now (Fuzzy.sensorStep line now prev)).
  { clearbody line. destruct line; [done|reflexivity]. }
  unfold Fuzzy.gpsStep. rewrite fuzzy_no_gps_letters.
  2:{ apply Forall_forall. unfold line. rewrite !Forall_app. repeat split.
      - destruct Hl as [-> | [-> | ->]]; concrete_chars.
      - eapply Forall_impl; [exact Hw|]. intros c Hc%whiteSpace_not_between. lia.
      - eapply Forall_impl; [exact Hdn|].
        intros c Hc%digit_numChar%numChar_range. lia.
      - eapply Forall_impl; [exact Hcls|]. apply sep_no_gps_letter.
      - eapply Forall_impl; [exact Hdf|].
        intros c Hc%dist_numChar%numChar_range. lia.
      - exact Hnl. }
  unfold Fuzzy.sensorStep, line.
  rewrite (fuzzy_sensor_line_match n f Hn Hf Hdn Hdf lbl w sep rest).
  - reflexivity.
  - by apply fuzzy_label_consumes.
  - eapply Forall_impl; [exact Hw|]. apply whiteSpace_inClass.
  - exact Hsep.
  - exact Hcls.
  - destruct sep as [|c sep']; [done|]. apply sep_not_digit. by inversion Hcls.
  - exact Hrest.
Qed.

Lemma fuzzy_sensor_formats_are_understood_witness :
  Fuzzy.processLine
    (js "ID" ++ js " " ++ js "2" ++ js ": " ++ js "131.07" ++ js " cm")
    sampleTime initialState
  = sensorUpdater (lit "2") (lit "131.07") true sampleTime initialState.
Proof.
  rewrite (fuzzy_sensor_formats_are_understood (js "ID") (js " ") (js "2")
             (js ": ") (js "131.07") (js " cm") sampleTime initialState);
    try discriminate; try (by left); vm_compute; repeat constructor; lia.
Defined.

(** ** The comma-separated fallback *)

Lemma consumesBefore_Empty ic rest : consumesBefore ic Empty [] rest.
Proof. intros caps k z Hk. exact Hk. Qed.

Lemma consumesBefore_Chr ic c rest : consumesBefore ic (Chr c) [c] rest.
Proof. intros caps k z Hk. simpl. by rewrite N.eqb_refl. Qed.

Lemma consumesBefore_Seq ic r1 r2 p1 p2 rest :
  consumesBefore ic r1 p1 (p2 ++ rest) -> consumesBefore ic r2 p2 rest ->
  consumesBefore ic (Seq r1 r2) (p1 ++ p2) rest.
Proof.
  intros H1 H2 caps k z Hk. rewrite <- app_assoc.
  change (matcher ic r1 (p1 ++ p2 ++ rest) caps
            (fun s' caps' => matcher ic r2 s' caps' k) = Some z).
  apply H1. by apply H2.
Qed.

Lemma consumesBefore_run ic cs min w rest :
  Forall (fun c => inClass ic cs c = true) w -> (min <= length w)%nat ->
  stopsAt ic cs rest ->
  consumesBefore ic (Quant min None (Class cs)) w rest.
Proof. intros Hw Hmin Hstop caps k z Hk. by apply Quant_class_greedy. Qed.

Lemma consumesBefore_Opt_taken ic c rest :
  consumesBefore ic (Opt (Chr c)) [c] rest.
Proof.
  intros caps k z Hk.
  change (repeatMatcher (matcher ic (Chr c)) [] (S (S (length rest))) 0
            (Some 1%nat) (c :: rest) caps k = Some z).
  cbn [repeatMatcher clearCaptures foldr matcher]. rewrite N.eqb_refl.
  cbn [Nat.eqb andb length Nat.pred fmap option_fmap option_map].
  replace (length rest =? S (length rest))%nat with false
    by (symmetry; apply Nat.eqb_neq; lia).
  rewrite Hk. reflexivity.
Qed.

Lemma consumesBefore_Opt_skipped c rest :
  match rest with x :: _ => x <> c | [] => True end ->
  consumesBefore false (Opt (Chr c)) [] rest.
Proof.
  intros Hrest caps k z Hk.
  change (repeatMatcher (matcher false (Chr c)) [] (S (length rest)) 0
            (Some 1%nat) rest caps k = Some z).
  cbn [repeatMatcher clearCaptures foldr matcher].
  destruct rest as [|x rest]; [exact Hk|].
  change (canonicalize false x) with x. change (canonicalize false c) with c.
  destruct (N.eqb_spec x c); [done|exact Hk].
Qed.

Lemma step_consumed ic n r r' p rest caps k z :
  consumesBefore ic r p rest ->
  matcher ic r' rest (<[n := Some p]> caps) k = Some z ->
  matcher ic (Seq (Group n r) r') (p ++ rest) caps k = Some z.
Proof.
  intros Hr H.
  change (matcher ic r (p ++ rest) caps
            (fun s' c' => matcher ic r' s'
               (<[n := Some (take (length (p ++ rest) - length s') (p ++ rest))]> c') k)
          = Some z).
  apply Hr. by rewrite take_app_minus.
Qed.

Lemma step_chr ic c r s caps k z :
  matcher ic r s caps k = Some z ->
  matcher ic (Seq (Chr c) r) (c :: s) caps k = Some z.
Proof. intros H. cbn [matcher]. by rewrite N.eqb_refl. Qed.

Lemma digit_inClass_false c : isDigit c = true -> inClass false [ADigit] c = true.
Proof. intros H. unfold inClass, atomMatches. cbn [existsb]. by rewrite orb_false_r. Qed.

Lemma decimal_consumed a rest :
  decimal a -> stopsAt false [ADigit] rest ->
  consumesBefore false
    (Cat [Opt (Chr (ch "-")); Plus (Class [ADigit]); Chr (ch ".");
          Plus (Class [ADigit])]) a rest.
Proof.
  intros (sg & i & fr & -> & Hsg & Hi & Hdi & Hfr & Hdfr) Hrest.
  cbn [Cat foldr].
  replace (sg ++ i ++ [ch "."] ++ fr) with (sg ++ i ++ [ch "."] ++ fr ++ [])
    by (by rewrite app_nil_r).
  apply consumesBefore_Seq; [|apply consumesBefore_Seq; [|apply consumesBefore_Seq;
    [|apply consumesBefore_Seq; [|apply consumesBefore_Empty]]]].
  - destruct Hsg as [-> | ->].
    + apply consumesBefore_Opt_skipped. destruct i as [|c i]; [done|].
      inversion Hdi as [|? ? Hc]. cbn [app]. intros ->. discriminate Hc.
    + apply consumesBefore_Opt_taken.
  - apply consumesBefore_run;
      [eapply Forall_impl; [exact Hdi|apply digit_inClass_false]
      |by apply nonempty_length|reflexivity].
  - apply consumesBefore_Chr.
  - apply consumesBefore_run;
      [eapply Forall_impl; [exact Hdfr|apply digit_inClass_false]
      |by apply nonempty_length|].
    by rewrite app_nil_l.
Qed.

Lemma decimal_numChar a : decimal a -> Forall (fun c => numChar c = true) a.
Proof.
  intros (sg & i & fr & -> & Hsg & _ & Hdi & _ & Hdfr).
  rewrite !Forall_app. repeat split.
  - destruct Hsg as [-> | ->]; repeat constructor.
  - eapply Forall_impl; [exact Hdi|apply digit_numChar].
  - repeat constructor.
  - eapply Forall_impl; [exact Hdfr|apply digit_numChar].
Qed.

Lemma decimal_nonempty a : decimal a -> a <> [].
Proof.
  intros (sg & i & fr & -> & _ & Hi & _). destruct sg; [|done].
  destruct i; done.
Qed.

Lemma numChar_startsClean a :
  Forall (fun c => numChar c = true) a -> startsClean a.
Proof.
  destruct a as [|c a]; [done|]. intros H. simpl.
  apply numChar_not_space. by inversion H.
Qed.

Lemma comma_line_match a w b :
  decimal a -> decimal b -> blank w ->
  strMatch (a ++ js "," ++ w ++ b) Fuzzy.commaGpsRe
  = Some [Some (a ++ js "," ++ w ++ b); Some a; Some b].
Proof.
  intros Ha Hb Hw. apply exec_hit. unfold matchAt.
  change (nCaptures (pattern Fuzzy.commaGpsRe)) with 2%nat.
  cbn [pattern ignoreCase Fuzzy.commaGpsRe].
  change (Cat [Group 1 ?d1; Chr ?c; Star ?q; Group 2 ?d2])
    with (Seq (Group 1 d1) (Seq (Chr c) (Seq (Quant 0 None q)
            (Seq (Group 2 d2) Empty)))).
  apply step_consumed; [by apply decimal_consumed|].
  apply (step_chr false (ch ",")).
  pose proof (decimal_numChar b Hb) as Hnb.
  pose proof (decimal_nonempty b Hb) as Hbne.
  apply step_quant;
    [eapply Forall_impl; [exact Hw|apply whiteSpace_inClass]|simpl; lia| |].
  { destruct b as [|c b]; [done|]. simpl. inversion Hnb as [|? ? Hc]; subst.
    change (inClass false [ASpace] c) with (isWhiteSpace c || false).
    rewrite orb_false_r. by apply numChar_not_space. }
  rewrite <- (app_nil_r b) at 1.
  apply step_consumed; [by apply decimal_consumed|].
  change (matcher ?ic Empty ?s ?c ?k) with (k s c). cbv beta.
  rewrite take_all_nil. reflexivity.
Qed.

Lemma gpsStep_found cl now st lat lng :
  Fuzzy.gpsFields cl = (lat, lng, true) ->
  Fuzzy.gpsStep cl now st
  = gpsUpdater lat lng
      (gt (abs lat) (lit "0.0001") || gt (abs lng) (lit "0.0001")) now st.
Proof. intros H. unfold Fuzzy.gpsStep. rewrite H. reflexivity. Qed.

Lemma sensorStep_unmatched cl now st :
  strMatch cl Fuzzy.sensorRe = None -> Fuzzy.sensorStep cl now st = st.
Proof. intros H. unfold Fuzzy.sensorStep. by rewrite H. Qed.

Lemma processLine_nonempty line now st :
  trim line = line -> line <> [] ->
  Fuzzy.processLine line now st
  = Fuzzy.gpsStep line now (Fuzzy.sensorStep line now st).
Proof.
  intros Ht Hne. unfold Fuzzy.processLine. rewrite Ht. cbv zeta.
  destruct line; [done|reflexivity].
Qed.

(** X14. The unlabelled pair means what the labelled line means, for all
    decimals. For decimals [a] and [b] of the shape [-?\d+\.\d+] and any
    white space after the comma, [processLine] on "a,b" and on
    "Lat: a Lng: b" give the same state: the previous one with the fix
    [{parseFloat(a), parseFloat(b), valid, now}], where [valid] is the
    epsilon test, and nothing else changed. *)
Theorem fallback_agrees_with_labels a w b now prev :
  decimal a -> decimal b -> blank w ->
  Fuzzy.processLine (a ++ js "," ++ w ++ b) now prev
  = gpsUpdater (parseFloat a) (parseFloat b)
      (gt (abs (parseFloat a)) (lit "0.0001")
       || gt (abs (parseFloat b)) (lit "0.0001")) now prev
  /\ Fuzzy.processLine (js "Lat: " ++ a ++ js " Lng: " ++ b) now prev
     = Fuzzy.processLine (a ++ js "," ++ w ++ b) now prev.
Proof.
  intros Ha Hb Hw.
  pose proof (decimal_numChar a Ha) as Hna.
  pose proof (decimal_numChar b Hb) as Hnb.
  pose proof (decimal_nonempty a Ha) as Hane.
  pose proof (decimal_nonempty b Hb) as Hbne.
  assert (Hcomma : Fuzzy.processLine (a ++ js "," ++ w ++ b) now prev
    = gpsUpdater (parseFloat a) (parseFloat b)
        (gt (abs (parseFloat a)) (lit "0.0001")
         || gt (abs (parseFloat b)) (lit "0.0001")) now prev).
  { rewrite processLine_nonempty.
    - rewrite sensorStep_unmatched.
      + apply gpsStep_found. unfold Fuzzy.gpsFields.
        rewrite comma_line_match by assumption.
        destruct (strMatch _ Fuzzy.lngRe) as [m|] eqn:E.
        * apply fuzzy_lng_needs_label in E as (x & Hx & Hc). exfalso.
          assert (HF : Forall (fun c => c <> 76 /\ c <> 108)%N
                         (a ++ js "," ++ w ++ b));
            [|rewrite Forall_forall in HF; specialize (HF x Hx); lia].
          rewrite !Forall_app.
          repeat split; try concrete_chars.
          -- eapply Forall_impl; [exact Hna|]. intros c Hr%numChar_range. lia.
          -- eapply Forall_impl; [exact Hw|]. intros c Hr%whiteSpace_not_between. lia.
          -- eapply Forall_impl; [exact Hnb|]. intros c Hr%numChar_range. lia.
        * by destruct (strMatch _ Fuzzy.latRe).
      + apply fuzzy_no_sensor_letters. apply Forall_forall. rewrite !Forall_app.
        repeat split; try concrete_chars.
        * eapply Forall_impl; [exact Hna|]. intros c Hr%numChar_range. lia.
        * eapply Forall_impl; [exact Hw|]. intros c Hr%whiteSpace_not_between. lia.
        * eapply Forall_impl; [exact Hnb|]. intros c Hr%numChar_range. lia.
    - apply trim_id.
      + destruct a as [|c a]; [done|]. by apply (numChar_startsClean (c :: a)).
      + rewrite !app_assoc. by apply ends_with_coordinate.
    - destruct a; done. }
  split; [exact Hcomma|]. rewrite Hcomma.
  pose proof (latFirst_fields a b Hane Hbne Hna Hnb) as Hf.
  assert (Ht : trim (js "Lat: " ++ a ++ js " Lng: " ++ b)
               = js "Lat: " ++ a ++ js " Lng: " ++ b).
  { apply trim_id; [reflexivity|]. rewrite !app_assoc.
    by apply ends_with_coordinate. }
  rewrite Ht in Hf. rewrite processLine_nonempty; [|exact Ht|done].
  rewrite sensorStep_unmatched.
  - by apply gpsStep_found.
  - apply fuzzy_no_sensor_letters. apply Forall_forall. rewrite !Forall_app.
    repeat split; try concrete_chars.
    + eapply Forall_impl; [exact Hna|]. intros c Hr%numChar_range. lia.
    + eapply Forall_impl; [exact Hnb|]. intros c Hr%numChar_range. lia.
Qed.

Lemma fallback_agrees_with_labels_witness :
  Fuzzy.processLine (js "Lat: " ++ js "34.05" ++ js " Lng: " ++ js "-118.24")
    sampleTime initialState
  = Fuzzy.processLine (js "34.05" ++ js "," ++ js " " ++ js "-118.24")
      sampleTime initialState.
Proof.
  apply (fallback_agrees_with_labels (js "34.05") (js " ") (js "-118.24")).
  - exists [], (js "34"), (js "05").
    split; [reflexivity|]. split; [by left|]. split; [discriminate|].
    split; [repeat constructor|]. split; [discriminate|repeat constructor].
  - exists (js "-"), (js "118"), (js "24").
    split; [reflexivity|]. split; [by right|]. split; [discriminate|].
    split; [repeat constructor|]. split; [discriminate|repeat constructor].
  - repeat constructor.
Defined.
